(** * gobfk: a Brainfuck interpreter in Go (gobfk.go)

    A shallow embedding of the tokenizer, of the single-step evaluator
    [Evaluate] with its two bracket scans [openLoop] and [closeLoop], of
    the caller's loop of [main] and of [debugTokens], followed by the
    properties of the specification that were checked against them and by
    further properties of the code.

    Conventions.
    - Go's [int] is taken as the 64-bit two's complement integer: a [Z] with
      the wrap-around of [++] and [--] written out ([Go.int_wrap]).
    - A [byte] is a [Z] in [0, 256); [++], [--] and the conversion [byte(x)]
      reduce modulo 256.
    - Indexing a slice outside of its bounds is Go's run-time panic
      "index out of range [i] with length n"; nothing in gobfk.go recovers
      from a panic, so a panic ends the run.  It is the result [Go.Panic].
    - The two [for] loops of the bracket scans and the caller's loop are
      recursive functions on a number of iterations still allowed; the result
      [Go.Timeout] says that this number was used up.  The evaluator calls
      the scans with as many iterations as the instruction slice has
      elements, plus one, which is enough ([Evaluate_total]). *)

From Stdlib Require Import ZArith Lia Bool Ascii String.
From stdpp Require Import base tactics option list.

Local Open Scope Z_scope.

(** ** The Go run time: integers, bytes, slices, panics *)

Module Go.

(** the largest [int] *)
Definition max_int : Z := 2 ^ 63 - 1.

Definition int_wrap (z : Z) : Z := (z + 2 ^ 63) mod 2 ^ 64 - 2 ^ 63.

(** [x++] and [x--] on an [int] *)
Definition int_incr (x : Z) : Z := int_wrap (x + 1).
Definition int_decr (x : Z) : Z := int_wrap (x - 1).

(** the conversion [byte(x)], and [x++], [x--] on a [byte] *)
Definition byte_of (x : Z) : Z := x mod 256.
Definition byte_incr (x : Z) : Z := byte_of (x + 1).
Definition byte_decr (x : Z) : Z := byte_of (x - 1).

Inductive RuntimeError : Type :=
  | IndexOutOfRange (idx : Z) (len : Z).

Inductive result (A : Type) : Type :=
  | Ok (a : A)
  | Panic (e : RuntimeError)
  | Timeout.

Arguments Ok {A} a.
Arguments Panic {A} e.
Arguments Timeout {A}.

#[export] Instance result_ret : MRet result := fun A a => Ok a.

#[export] Instance result_bind : MBind result := fun A B f m =>
  match m with
  | Ok a => f a
  | Panic e => Panic e
  | Timeout => Timeout
  end.

Definition in_range {A : Type} (s : list A) (i : Z) : bool :=
  (0 <=? i) && (i <? Z.of_nat (length s)).

(** [s[i]] read *)
Definition index {A : Type} (s : list A) (i : Z) : result A :=
  if in_range s i then
    match s !! Z.to_nat i with
    | Some x => Ok x
    | None => Panic (IndexOutOfRange i (Z.of_nat (length s)))
    end
  else Panic (IndexOutOfRange i (Z.of_nat (length s))).

(** [s[i] = x] *)
Definition store {A : Type} (s : list A) (i : Z) (x : A) : result (list A) :=
  if in_range s i then Ok (<[Z.to_nat i := x]> s)
  else Panic (IndexOutOfRange i (Z.of_nat (length s))).

End Go.

Import Go.

(** ** Tokens *)

(** [type Token = byte], the constants being numbered by [iota]. *)
Definition Token : Type := Z.

Definition COMMENT : Token := 0.
Definition RIGHT : Token := 1.
Definition LEFT : Token := 2.
Definition INC : Token := 3.
Definition DEC : Token := 4.
Definition PRINT : Token := 5.
Definition READ : Token := 6.
Definition LOOPL : Token := 7.
Definition LOOPR : Token := 8.

(** ** The program record *)

Record BrainfuckProgram : Type := mkBrainfuckProgram {
  Instructions : list Token;
  Tape : list Z;
  DP : Z;
  PC : Z;
  Finished : bool
}.

Definition set_Instructions (bf : BrainfuckProgram) (v : list Token) : BrainfuckProgram :=
  {| Instructions := v; Tape := Tape bf; DP := DP bf; PC := PC bf; Finished := Finished bf |}.

Definition set_Tape (bf : BrainfuckProgram) (v : list Z) : BrainfuckProgram :=
  {| Instructions := Instructions bf; Tape := v; DP := DP bf; PC := PC bf; Finished := Finished bf |}.

Definition set_DP (bf : BrainfuckProgram) (v : Z) : BrainfuckProgram :=
  {| Instructions := Instructions bf; Tape := Tape bf; DP := v; PC := PC bf; Finished := Finished bf |}.

Definition set_PC (bf : BrainfuckProgram) (v : Z) : BrainfuckProgram :=
  {| Instructions := Instructions bf; Tape := Tape bf; DP := DP bf; PC := v; Finished := Finished bf |}.

Definition set_Finished (bf : BrainfuckProgram) (v : bool) : BrainfuckProgram :=
  {| Instructions := Instructions bf; Tape := Tape bf; DP := DP bf; PC := PC bf; Finished := v |}.

(** ** Source text and the standard streams *)

(** A character (Go's [rune]) is its code point.  [for _, char := range input]
    visits the characters of the string one after the other; the source text
    is taken as that sequence of characters. *)
Definition rune : Type := Z.

Definition chr (a : ascii) : rune := Z.of_nat (nat_of_ascii a).

(** the characters of a text written with ASCII characters only *)
Definition text (s : string) : list rune := chr <$> list_ascii_of_string s.

(** [os.Stdin] is the sequence of characters that the readers made by the
    successive [READ] instructions deliver, each its first one; [os.Stdout]
    is the sequence of characters printed so far, the oldest first. *)
Record Stdio : Type := mkStdio {
  stdin : list rune;
  stdout : list Z
}.

(** [reader.ReadRune()] of bufio: the next character and no error, or at the
    end of the input the character 0 with an error (the [bool]). *)
Definition ReadRune (io : Stdio) : rune * bool * Stdio :=
  match stdin io with
  | [] => (0, true, io)
  | r :: rest => (r, false, {| stdin := rest; stdout := stdout io |})
  end.

(** [fmt.Printf("%c", c)] *)
Definition Printf_c (io : Stdio) (c : Z) : Stdio :=
  {| stdin := stdin io; stdout := stdout io ++ [c] |}.

(** ** tokenize and CreateBrainfuckProgram *)

(** the body of the [range] loop of [tokenize]: one [append] per character *)
Definition tokenize_char (tokenized : list Token) (char : rune) : list Token :=
  if char =? chr ">" then tokenized ++ [RIGHT]
  else if char =? chr "<" then tokenized ++ [LEFT]
  else if char =? chr "+" then tokenized ++ [INC]
  else if char =? chr "-" then tokenized ++ [DEC]
  else if char =? chr "." then tokenized ++ [PRINT]
  else if char =? chr "," then tokenized ++ [READ]
  else if char =? chr "[" then tokenized ++ [LOOPL]
  else if char =? chr "]" then tokenized ++ [LOOPR]
  else tokenized ++ [COMMENT].

Definition tokenize (bf : BrainfuckProgram) (input : list rune) : BrainfuckProgram :=
  let tokenized := fold_left tokenize_char input [] in
  set_Instructions bf tokenized.

Definition tape_length : nat := Z.to_nat 64000.

Definition CreateBrainfuckProgram (input : list rune) : BrainfuckProgram :=
  let bf := {| Instructions := [];
               Tape := replicate tape_length 0;
               DP := 0;
               PC := 0;
               Finished := false |} in
  tokenize bf input.

(** ** The bracket scans *)

(** the loop [for balance != 0 { ... }] of [openLoop] *)
Fixpoint openLoop_for (fuel : nat) (bf : BrainfuckProgram) (balance : Z)
  : result BrainfuckProgram :=
  if balance =? 0 then Ok bf
  else
    match fuel with
    | O => Timeout
    | S fuel =>
        let bf := set_PC bf (int_incr (PC bf)) in
        t ← index (Instructions bf) (PC bf);
        if t =? LOOPL then openLoop_for fuel bf (int_incr balance)
        else
          t ← index (Instructions bf) (PC bf);
          if t =? LOOPR then openLoop_for fuel bf (int_decr balance)
          else openLoop_for fuel bf balance
    end.

Definition openLoop (bf : BrainfuckProgram) : result BrainfuckProgram :=
  let balance := 1 in
  cell ← index (Tape bf) (DP bf);
  if cell =? 0 then openLoop_for (S (length (Instructions bf))) bf balance
  else Ok bf.

(** the loop [for { ...; if balance == 0 { break } }] of [closeLoop] *)
Fixpoint closeLoop_for (fuel : nat) (bf : BrainfuckProgram) (balance : Z)
  : result BrainfuckProgram :=
  match fuel with
  | O => Timeout
  | S fuel =>
      t ← index (Instructions bf) (PC bf);
      balance ←
        (if t =? LOOPL then Ok (int_incr balance)
         else
           t ← index (Instructions bf) (PC bf);
           if t =? LOOPR then Ok (int_decr balance)
           else Ok balance);
      let bf := set_PC bf (int_decr (PC bf)) in
      if balance =? 0 then Ok bf
      else closeLoop_for fuel bf balance
  end.

Definition closeLoop (bf : BrainfuckProgram) : result BrainfuckProgram :=
  let balance := 0 in
  closeLoop_for (S (length (Instructions bf))) bf balance.

(** ** Evaluate: one step *)

(** the [switch] of [Evaluate]; a token with no [case] does nothing *)
Definition Evaluate_switch (bf : BrainfuckProgram) (io : Stdio)
  : result (BrainfuckProgram * Stdio) :=
  t ← index (Instructions bf) (PC bf);
  if t =? RIGHT then Ok (set_DP bf (int_incr (DP bf)), io)
  else if t =? LEFT then Ok (set_DP bf (int_decr (DP bf)), io)
  else if t =? INC then
    cell ← index (Tape bf) (DP bf);
    tape ← store (Tape bf) (DP bf) (byte_incr cell);
    Ok (set_Tape bf tape, io)
  else if t =? DEC then
    cell ← index (Tape bf) (DP bf);
    tape ← store (Tape bf) (DP bf) (byte_decr cell);
    Ok (set_Tape bf tape, io)
  else if t =? PRINT then
    cell ← index (Tape bf) (DP bf);
    Ok (bf, Printf_c io cell)
  else if t =? READ then
    let '(char, _, io) := ReadRune io in
    tape ← store (Tape bf) (DP bf) (byte_of char);
    Ok (set_Tape bf tape, io)
  else if t =? LOOPL then
    bf ← openLoop bf;
    Ok (bf, io)
  else if t =? LOOPR then
    bf ← closeLoop bf;
    Ok (bf, io)
  else Ok (bf, io).

(** what follows the [switch]: [bf.PC++], and [Finished] is set when the
    cursor has left the instructions *)
Definition Evaluate_end (bf : BrainfuckProgram) : BrainfuckProgram :=
  let bf := set_PC bf (int_incr (PC bf)) in
  if Z.of_nat (length (Instructions bf)) <=? PC bf
  then set_Finished bf true
  else bf.

Definition Evaluate (bf : BrainfuckProgram) (io : Stdio)
  : result (BrainfuckProgram * Stdio) :=
  '(bf, io) ← Evaluate_switch bf io;
  Ok (Evaluate_end bf, io).

(** ** The caller's loop: [for bf.Finished != true { bf.Evaluate() }] *)

Fixpoint run (fuel : nat) (bf : BrainfuckProgram) (io : Stdio)
  : result (BrainfuckProgram * Stdio) :=
  if Finished bf then Ok (bf, io)
  else
    match fuel with
    | O => Timeout
    | S fuel =>
        '(bf, io) ← Evaluate bf io;
        run fuel bf io
    end.

(** The same loop, which also records the instruction cursor at the
    beginning of each call of [Evaluate]: the list has one entry per step. *)
Fixpoint run_trace (fuel : nat) (bf : BrainfuckProgram) (io : Stdio)
  : result (BrainfuckProgram * Stdio * list Z) :=
  if Finished bf then Ok (bf, io, [])
  else
    match fuel with
    | O => Timeout
    | S fuel =>
        let pc := PC bf in
        '(bf, io) ← Evaluate bf io;
        '(bf, io, pcs) ← run_trace fuel bf io;
        Ok (bf, io, pc :: pcs)
    end.

(** The first [n] iterations of the caller's loop (fewer when the program
    finishes before). *)
Fixpoint steps (n : nat) (bf : BrainfuckProgram) (io : Stdio)
  : result (BrainfuckProgram * Stdio) :=
  match n with
  | O => Ok (bf, io)
  | S n =>
      if Finished bf then Ok (bf, io)
      else
        '(bf, io) ← Evaluate bf io;
        steps n bf io
  end.

(** ** Well-bracketed instruction sequences *)

(** The grammar of well-bracketed sequences: empty, a token that is no
    bracket before a well-bracketed sequence, or a loop before one. *)
Inductive balanced : list Token -> Prop :=
  | balanced_nil : balanced []
  | balanced_token t l :
      t <> LOOPL -> t <> LOOPR -> balanced l -> balanced (t :: l)
  | balanced_loop body l :
      balanced body -> balanced l -> balanced (LOOPL :: body ++ LOOPR :: l).

(** The same as a check: the number of loops open so far never drops below
    zero and is zero at the end. *)
Fixpoint balanced_from (depth : nat) (l : list Token) : bool :=
  match l with
  | [] => Nat.eqb depth 0
  | t :: l =>
      if t =? LOOPL then balanced_from (S depth) l
      else if t =? LOOPR then
        match depth with
        | O => false
        | S depth => balanced_from depth l
        end
      else balanced_from depth l
  end.

Definition balancedb (l : list Token) : bool := balanced_from 0 l.

(** [closes depth l]: [l] closes [depth] loops that were opened before it,
    and is well-bracketed apart from that *)
Fixpoint closes (depth : nat) (l : list Token) : Prop :=
  match depth with
  | O => balanced l
  | S depth => exists a b, l = a ++ LOOPR :: b /\ balanced a /\ closes depth b
  end.

(** ** Matching brackets *)

(** The loop-open at index [i] and the loop-close at index [j] of [ins]
    belong together: what lies between them is well-bracketed. *)
Definition matching (ins : list Token) (i j : nat) : Prop :=
  exists pre body post,
    ins = pre ++ LOOPL :: body ++ LOOPR :: post /\
    balanced body /\
    i = length pre /\
    j = (length pre + 1 + length body)%nat.

(** ** Observations *)

(** the cursor of a result, for results that are compared by it *)
Definition result_PC (r : result (BrainfuckProgram * Stdio)) : option Z :=
  match r with
  | Ok (bf, _) => Some (PC bf)
  | _ => None
  end.

(** what is looked at after a run: the cursors, [Finished], the current cell
    and what was printed *)
Definition observe (r : result (BrainfuckProgram * Stdio))
  : option (Z * Z * bool * option Z * list Z) :=
  match r with
  | Ok (bf, io) =>
      Some (PC bf, DP bf, Finished bf, Tape bf !! Z.to_nat (DP bf), stdout io)
  | _ => None
  end.

(** ** The tokens of the specification *)

(** The token that the specification gives for a character: the eight
    symbols have their own, every other character is a comment. *)
Definition token_of_char (c : rune) : Token :=
  if c =? chr ">" then RIGHT
  else if c =? chr "<" then LEFT
  else if c =? chr "+" then INC
  else if c =? chr "-" then DEC
  else if c =? chr "." then PRINT
  else if c =? chr "," then READ
  else if c =? chr "[" then LOOPL
  else if c =? chr "]" then LOOPR
  else COMMENT.

(** ** The streams *)

(** the streams after an operation: what was printed is kept and at most
    one character is added, and at most one character of the input is used *)
Definition streams_follow (io io' : Stdio) : Prop :=
  (exists out, stdout io' = stdout io ++ out /\ (length out <= 1)%nat) /\
  (exists used, stdin io = used ++ stdin io' /\ (length used <= 1)%nat).

(** ** debugTokens *)

(** the body of the [range] loop of [debugTokens]: a name is appended for
    the eight tokens that have a [case], nothing for any other token *)
Definition debugTokens_token (result : list string) (token : Token) : list string :=
  if token =? RIGHT then result ++ ["RIGHT"%string]
  else if token =? LEFT then result ++ ["LEFT"%string]
  else if token =? INC then result ++ ["INC"%string]
  else if token =? DEC then result ++ ["DEC"%string]
  else if token =? PRINT then result ++ ["PRINT"%string]
  else if token =? READ then result ++ ["READ"%string]
  else if token =? LOOPL then result ++ ["LOOPL"%string]
  else if token =? LOOPR then result ++ ["LOOPR"%string]
  else result.

Definition debugTokens (bf : BrainfuckProgram) : list string :=
  fold_left debugTokens_token (Instructions bf) [].

(** the token that a name of [debugTokens] stands for *)
Definition token_of_name (name : string) : option Token :=
  if String.eqb name "RIGHT" then Some RIGHT
  else if String.eqb name "LEFT" then Some LEFT
  else if String.eqb name "INC" then Some INC
  else if String.eqb name "DEC" then Some DEC
  else if String.eqb name "PRINT" then Some PRINT
  else if String.eqb name "READ" then Some READ
  else if String.eqb name "LOOPL" then Some LOOPL
  else if String.eqb name "LOOPR" then Some LOOPR
  else None.

(** the tokens that [Evaluate] and [debugTokens] have a [case] for *)
Definition is_symbol (t : Token) : bool := (RIGHT <=? t) && (t <=? LOOPR).

(** ** What a scan has read *)

(** [scanned depth s]: the tokens [s], read from left to right, close
    [depth] loops that were open before them, the last token closing the
    last of these loops, and are well-bracketed apart from that. *)
Fixpoint scanned (depth : nat) (s : list Token) : Prop :=
  match depth with
  | O => s = []
  | S depth => exists a rest, s = a ++ LOOPR :: rest /\ balanced a /\ scanned depth rest
  end.

(** [scanned_back depth s]: the tokens [s], read from right to left, open
    [depth] loops that were closed after them, the first token of [s]
    opening the last of these loops. *)
Fixpoint scanned_back (depth : nat) (s : list Token) : Prop :=
  match depth with
  | O => s = []
  | S depth =>
      exists rest a, s = rest ++ LOOPL :: a /\ balanced a /\ scanned_back depth rest
  end.

(** the cursors [p], [p + 1], ..., [p + n - 1] *)
Fixpoint cursors (p : Z) (n : nat) : list Z :=
  match n with
  | O => []
  | S n => p :: cursors (p + 1) n
  end.

(** * Properties *)

(** ** Integers and slices *)

Lemma int_wrap_small z : - 2 ^ 63 <= z <= max_int -> int_wrap z = z.
Proof.
  intros H. unfold int_wrap, max_int in *. rewrite Z.mod_small; lia.
Qed.

Lemma int_incr_small z : - 2 ^ 63 <= z < max_int -> int_incr z = z + 1.
Proof. intros H. unfold int_incr. apply int_wrap_small. lia. Qed.

Lemma int_decr_small z : - 2 ^ 63 < z <= max_int -> int_decr z = z - 1.
Proof. intros H. unfold int_decr. apply int_wrap_small. lia. Qed.

Lemma in_range_spec {A} (s : list A) i :
  in_range s i = true <-> 0 <= i < Z.of_nat (length s).
Proof. unfold in_range. rewrite andb_true_iff, Z.leb_le, Z.ltb_lt. tauto. Qed.

Lemma index_lookup {A} (s : list A) (n : nat) x :
  s !! n = Some x -> index s (Z.of_nat n) = Ok x.
Proof.
  intros H. unfold index.
  assert (Hr : in_range s (Z.of_nat n) = true).
  { apply in_range_spec. apply lookup_lt_Some in H. lia. }
  rewrite Hr, Nat2Z.id, H. reflexivity.
Qed.

Lemma index_Ok_inv {A} (s : list A) i x :
  index s i = Ok x -> 0 <= i < Z.of_nat (length s) /\ s !! Z.to_nat i = Some x.
Proof.
  unfold index. destruct (in_range s i) eqn:Hr; [|discriminate].
  apply in_range_spec in Hr. destruct (s !! Z.to_nat i) eqn:Hl; [|discriminate].
  intros [= ->]. auto.
Qed.

Lemma index_outside {A} (s : list A) i :
  ~ 0 <= i < Z.of_nat (length s) ->
  index s i = Panic (IndexOutOfRange i (Z.of_nat (length s))).
Proof.
  intros H. unfold index. destruct (in_range s i) eqn:Hr; [|reflexivity].
  apply in_range_spec in Hr. contradiction.
Qed.

Lemma index_middle {A} (pre post : list A) x i :
  i = Z.of_nat (length pre) -> index (pre ++ x :: post) i = Ok x.
Proof. intros ->. apply index_lookup, list_lookup_middle. reflexivity. Qed.

(** ** The forward scan of [openLoop] *)

Lemma balanced_length_app (pre body post : list Token) :
  Z.of_nat (length (pre ++ body ++ post)) =
  Z.of_nat (length pre) + Z.of_nat (length body) + Z.of_nat (length post).
Proof. rewrite !length_app. lia. Qed.

(** one iteration of the loop of [openLoop] *)
Lemma openLoop_for_step ins tape dp pc fin fuel balance t :
  balance <> 0 -> - 2 ^ 63 <= pc < max_int ->
  index ins (pc + 1) = Ok t ->
  openLoop_for (S fuel) (mkBrainfuckProgram ins tape dp pc fin) balance
  = openLoop_for fuel (mkBrainfuckProgram ins tape dp (pc + 1) fin)
      (if t =? LOOPL then int_incr balance
       else if t =? LOOPR then int_decr balance
       else balance).
Proof.
  intros Hb Hpc Ht. cbn [openLoop_for].
  destruct (Z.eqb_spec balance 0) as [|_]; [contradiction|].
  cbn [PC Instructions set_PC]. rewrite int_incr_small by assumption.
  rewrite Ht. cbn [mbind result_bind].
  destruct (t =? LOOPL); [reflexivity|].
  destruct (t =? LOOPR); reflexivity.
Qed.

(** Scanning forward over a well-bracketed stretch with a counter above zero
    takes one iteration per token and gives the counter back unchanged. *)
Lemma openLoop_for_balanced body :
  balanced body ->
  forall pre post ins tape dp pc fin fuel balance,
    ins = pre ++ body ++ post ->
    pc = Z.of_nat (length pre) - 1 ->
    Z.of_nat (length ins) <= max_int ->
    0 < balance -> balance + Z.of_nat (length body) <= max_int ->
    openLoop_for (length body + fuel) (mkBrainfuckProgram ins tape dp pc fin) balance
    = openLoop_for fuel
        (mkBrainfuckProgram ins tape dp (pc + Z.of_nat (length body)) fin) balance.
Proof.
  induction 1 as [|t l Hl Hr Hbal IH|body l Hbody IHbody Hl IHl];
    intros pre post ins tape dp pc fin fuel balance Hins Hpc Hlen Hpos Hmax.
  - cbn [length Nat.add]. do 2 f_equal. cbn. lia.
  - assert (Hlen' := Hlen). rewrite Hins, balanced_length_app in Hlen'.
    cbn [length] in Hlen', Hmax |- *. cbn [Nat.add].
    rewrite (openLoop_for_step _ _ _ _ _ _ _ t); [| lia | unfold max_int in *; lia |].
    2:{ rewrite Hins. apply index_middle. lia. }
    destruct (Z.eqb_spec t LOOPL) as [|_]; [contradiction|].
    destruct (Z.eqb_spec t LOOPR) as [|_]; [contradiction|].
    rewrite (IH (pre ++ [t]) post); [do 2 f_equal; lia | | | | |]; try lia.
    + rewrite Hins, <- !app_assoc. reflexivity.
    + rewrite length_app. cbn [length]. lia.
  - assert (Hlen' := Hlen). rewrite Hins, balanced_length_app in Hlen'.
    rewrite length_cons, length_app, length_cons in Hlen', Hmax |- *.
    replace (S (length body + S (length l)) + fuel)%nat
      with (S (length body + S (length l + fuel)))%nat by lia.
    (* the opening bracket *)
    rewrite (openLoop_for_step _ _ _ _ _ _ _ LOOPL); [| lia | unfold max_int in *; lia |].
    2:{ rewrite Hins. apply index_middle. lia. }
    change (LOOPL =? LOOPL) with true. cbn iota.
    rewrite (int_incr_small balance) by (unfold max_int in *; lia).
    (* the body of the inner loop *)
    rewrite (IHbody (pre ++ [LOOPL]) (LOOPR :: l ++ post)); try lia.
    2:{ rewrite Hins, <- !app_assoc. cbn. rewrite <- !app_assoc. reflexivity. }
    2:{ rewrite length_app. cbn [length]. lia. }
    (* its closing bracket *)
    rewrite (openLoop_for_step _ _ _ _ _ _ _ LOOPR); [| lia | unfold max_int in *; lia |].
    2:{ rewrite Hins.
        replace (pre ++ (LOOPL :: body ++ LOOPR :: l) ++ post)
          with ((pre ++ LOOPL :: body) ++ LOOPR :: l ++ post)
          by (rewrite <- !app_assoc; cbn; rewrite <- !app_assoc; reflexivity).
        apply index_middle. rewrite length_app. cbn [length]. lia. }
    change (LOOPR =? LOOPL) with false. change (LOOPR =? LOOPR) with true. cbn iota.
    rewrite (int_decr_small (balance + 1)) by (unfold max_int in *; lia).
    replace (balance + 1 - 1) with balance by lia.
    (* what follows the inner loop *)
    rewrite (IHl (pre ++ LOOPL :: body ++ [LOOPR]) post); try lia.
    + do 2 f_equal. lia.
    + rewrite Hins, <- !app_assoc. cbn. rewrite <- !app_assoc. reflexivity.
    + rewrite !length_app. cbn [length]. rewrite length_app. cbn [length]. lia.
Qed.

(** ** The backward scan of [closeLoop] *)

(** one iteration of the loop of [closeLoop] *)
Lemma closeLoop_for_step ins tape dp pc fin fuel balance t :
  - 2 ^ 63 < pc <= max_int ->
  index ins pc = Ok t ->
  closeLoop_for (S fuel) (mkBrainfuckProgram ins tape dp pc fin) balance
  = let balance :=
      if t =? LOOPL then int_incr balance
      else if t =? LOOPR then int_decr balance
      else balance in
    if balance =? 0 then Ok (mkBrainfuckProgram ins tape dp (pc - 1) fin)
    else closeLoop_for fuel (mkBrainfuckProgram ins tape dp (pc - 1) fin) balance.
Proof.
  intros Hpc Ht. cbn [closeLoop_for].
  cbn [PC Instructions set_PC]. rewrite int_decr_small by assumption.
  rewrite Ht. cbn [mbind result_bind].
  destruct (t =? LOOPL); [reflexivity|].
  cbn [mbind result_bind].
  destruct (t =? LOOPR); reflexivity.
Qed.

(** Scanning backward over a well-bracketed stretch with a counter below zero
    takes one iteration per token and gives the counter back unchanged. *)
Lemma closeLoop_for_balanced body :
  balanced body ->
  forall pre post ins tape dp pc fin fuel balance,
    ins = pre ++ body ++ post ->
    pc = Z.of_nat (length pre) + Z.of_nat (length body) - 1 ->
    Z.of_nat (length ins) <= max_int ->
    balance < 0 -> - 2 ^ 63 < balance - Z.of_nat (length body) ->
    closeLoop_for (length body + fuel) (mkBrainfuckProgram ins tape dp pc fin) balance
    = closeLoop_for fuel
        (mkBrainfuckProgram ins tape dp (pc - Z.of_nat (length body)) fin) balance.
Proof.
  induction 1 as [|t l Hl Hr Hbal IH|body l Hbody IHbody Hl IHl];
    intros pre post ins tape dp pc fin fuel balance Hins Hpc Hlen Hneg Hmin.
  - cbn [length Nat.add]. do 2 f_equal. cbn. lia.
  - assert (Hlen' := Hlen). rewrite Hins, balanced_length_app in Hlen'.
    cbn [length] in Hlen', Hmin, Hpc |- *.
    replace (S (length l) + fuel)%nat with (length l + S fuel)%nat by lia.
    rewrite (IH (pre ++ [t]) post); try lia.
    2:{ rewrite Hins, <- !app_assoc. reflexivity. }
    2:{ rewrite length_app. cbn [length]. lia. }
    rewrite (closeLoop_for_step _ _ _ _ _ _ _ t); [| unfold max_int in *; lia |].
    2:{ rewrite Hins. apply index_middle. lia. }
    destruct (Z.eqb_spec t LOOPL) as [|_]; [contradiction|].
    destruct (Z.eqb_spec t LOOPR) as [|_]; [contradiction|].
    cbn zeta. destruct (Z.eqb_spec balance 0) as [|_]; [lia|].
    do 2 f_equal. lia.
  - assert (Hlen' := Hlen). rewrite Hins, balanced_length_app in Hlen'.
    rewrite length_cons, length_app, length_cons in Hlen', Hmin, Hpc |- *.
    replace (S (length body + S (length l)) + fuel)%nat
      with (length l + S (length body + S fuel))%nat by lia.
    (* what follows the inner loop *)
    rewrite (IHl (pre ++ LOOPL :: body ++ [LOOPR]) post); try lia.
    2:{ rewrite Hins, <- !app_assoc. cbn. rewrite <- !app_assoc. reflexivity. }
    2:{ rewrite !length_app. cbn [length]. rewrite length_app. cbn [length]. lia. }
    (* the closing bracket of the inner loop *)
    rewrite (closeLoop_for_step _ _ _ _ _ _ _ LOOPR); [| unfold max_int in *; lia |].
    2:{ rewrite Hins.
        replace (pre ++ (LOOPL :: body ++ LOOPR :: l) ++ post)
          with ((pre ++ LOOPL :: body) ++ LOOPR :: l ++ post)
          by (rewrite <- !app_assoc; cbn; rewrite <- !app_assoc; reflexivity).
        apply index_middle. rewrite length_app. cbn [length]. lia. }
    change (LOOPR =? LOOPL) with false. change (LOOPR =? LOOPR) with true. cbn iota zeta.
    rewrite (int_decr_small balance) by (unfold max_int in *; lia).
    destruct (Z.eqb_spec (balance - 1) 0) as [|_]; [lia|].
    (* its body *)
    rewrite (IHbody (pre ++ [LOOPL]) (LOOPR :: l ++ post)); try lia.
    2:{ rewrite Hins, <- !app_assoc. cbn. rewrite <- !app_assoc. reflexivity. }
    2:{ rewrite length_app. cbn [length]. lia. }
    (* its opening bracket *)
    rewrite (closeLoop_for_step _ _ _ _ _ _ _ LOOPL); [| unfold max_int in *; lia |].
    2:{ rewrite Hins. apply index_middle. lia. }
    change (LOOPL =? LOOPL) with true. cbn iota zeta.
    rewrite (int_incr_small (balance - 1)) by (unfold max_int in *; lia).
    replace (balance - 1 + 1) with balance by lia.
    destruct (Z.eqb_spec balance 0) as [|_]; [lia|].
    do 2 f_equal. lia.
Qed.

(** ** Matching brackets *)

Lemma matching_lt ins i j : matching ins i j -> (i < j < length ins)%nat.
Proof.
  intros (pre & body & post & -> & _ & -> & ->).
  rewrite length_app, length_cons, length_app, length_cons. lia.
Qed.

Lemma matching_lookup ins i j :
  matching ins i j -> ins !! i = Some LOOPL /\ ins !! j = Some LOOPR.
Proof.
  intros (pre & body & post & -> & _ & -> & ->). split.
  - apply list_lookup_middle. reflexivity.
  - replace (pre ++ LOOPL :: body ++ LOOPR :: post)
      with ((pre ++ LOOPL :: body) ++ LOOPR :: post)
      by (rewrite <- app_assoc; reflexivity).
    apply list_lookup_middle. rewrite length_app, length_cons. lia.
Qed.

Lemma openLoop_for_0 fuel bf : openLoop_for fuel bf 0 = Ok bf.
Proof. destruct fuel; reflexivity. Qed.

(** The forward scan started on a loop-open with the counter at 1 stops on
    the loop-close that belongs to it. *)
Lemma openLoop_for_matching ins tape dp fin i j :
  Z.of_nat (length ins) <= max_int ->
  matching ins i j ->
  openLoop_for (S (length ins)) (mkBrainfuckProgram ins tape dp (Z.of_nat i) fin) 1
  = Ok (mkBrainfuckProgram ins tape dp (Z.of_nat j) fin).
Proof.
  intros Hlen (pre & body & post & Hins & Hbal & -> & ->).
  assert (Hlen' := Hlen).
  rewrite Hins, length_app, length_cons, length_app, length_cons in Hlen'.
  replace (S (length ins))
    with (length body + S (S (S (length pre + length post))))%nat
    by (rewrite Hins, length_app, length_cons, length_app, length_cons; lia).
  rewrite (openLoop_for_balanced body Hbal (pre ++ [LOOPL]) (LOOPR :: post)); try lia.
  2:{ rewrite Hins, <- app_assoc. reflexivity. }
  2:{ rewrite length_app. cbn [length]. lia. }
  rewrite (openLoop_for_step _ _ _ _ _ _ _ LOOPR); [| lia | unfold max_int in *; lia |].
  2:{ rewrite Hins.
      replace (pre ++ LOOPL :: body ++ LOOPR :: post)
        with ((pre ++ LOOPL :: body) ++ LOOPR :: post)
        by (rewrite <- app_assoc; reflexivity).
      apply index_middle. rewrite length_app, length_cons. lia. }
  change (LOOPR =? LOOPL) with false. change (LOOPR =? LOOPR) with true. cbn iota.
  change (int_decr 1) with 0. rewrite openLoop_for_0.
  do 2 f_equal. lia.
Qed.

(** The backward scan started on a loop-close with the counter at 0 stops
    when it has read the loop-open that belongs to it, the cursor being
    one place before that loop-open. *)
Lemma closeLoop_for_matching ins tape dp fin i j :
  Z.of_nat (length ins) <= max_int ->
  matching ins i j ->
  closeLoop_for (S (length ins)) (mkBrainfuckProgram ins tape dp (Z.of_nat j) fin) 0
  = Ok (mkBrainfuckProgram ins tape dp (Z.of_nat i - 1) fin).
Proof.
  intros Hlen (pre & body & post & Hins & Hbal & -> & ->).
  assert (Hlen' := Hlen).
  rewrite Hins, length_app, length_cons, length_app, length_cons in Hlen'.
  rewrite (closeLoop_for_step _ _ _ _ _ _ _ LOOPR); [| unfold max_int in *; lia |].
  2:{ rewrite Hins.
      replace (pre ++ LOOPL :: body ++ LOOPR :: post)
        with ((pre ++ LOOPL :: body) ++ LOOPR :: post)
        by (rewrite <- app_assoc; reflexivity).
      apply index_middle. rewrite length_app, length_cons. lia. }
  change (LOOPR =? LOOPL) with false. change (LOOPR =? LOOPR) with true.
  change (int_decr 0) with (-1). cbn iota zeta. change (-1 =? 0) with false. cbn iota.
  replace (length ins)
    with (length body + S (S (length pre + length post)))%nat
    by (rewrite Hins, length_app, length_cons, length_app, length_cons; lia).
  rewrite (closeLoop_for_balanced body Hbal (pre ++ [LOOPL]) (LOOPR :: post));
    try (unfold max_int in *; lia).
  2:{ rewrite Hins, <- app_assoc. reflexivity. }
  2:{ rewrite length_app. cbn [length]. lia. }
  rewrite (closeLoop_for_step _ _ _ _ _ _ _ LOOPL); [| unfold max_int in *; lia |].
  2:{ rewrite Hins. apply index_middle. lia. }
  change (LOOPL =? LOOPL) with true. change (int_incr (-1)) with 0.
  cbn iota zeta. change (0 =? 0) with true. cbn iota.
  do 2 f_equal. lia.
Qed.

(** ** The dispatch of [Evaluate] *)

Lemma Evaluate_switch_LOOPL bf io :
  index (Instructions bf) (PC bf) = Ok LOOPL ->
  Evaluate_switch bf io = (bf' ← openLoop bf; Ok (bf', io)).
Proof. intros H. unfold Evaluate_switch. rewrite H. reflexivity. Qed.

Lemma Evaluate_switch_LOOPR bf io :
  index (Instructions bf) (PC bf) = Ok LOOPR ->
  Evaluate_switch bf io = (bf' ← closeLoop bf; Ok (bf', io)).
Proof. intros H. unfold Evaluate_switch. rewrite H. reflexivity. Qed.

Lemma Evaluate_switch_INC bf io :
  index (Instructions bf) (PC bf) = Ok INC ->
  Evaluate_switch bf io =
    (cell ← index (Tape bf) (DP bf);
     tape ← store (Tape bf) (DP bf) (byte_incr cell);
     Ok (set_Tape bf tape, io)).
Proof. intros H. unfold Evaluate_switch. rewrite H. reflexivity. Qed.

Lemma Evaluate_switch_DEC bf io :
  index (Instructions bf) (PC bf) = Ok DEC ->
  Evaluate_switch bf io =
    (cell ← index (Tape bf) (DP bf);
     tape ← store (Tape bf) (DP bf) (byte_decr cell);
     Ok (set_Tape bf tape, io)).
Proof. intros H. unfold Evaluate_switch. rewrite H. reflexivity. Qed.

Lemma Evaluate_switch_READ bf io :
  index (Instructions bf) (PC bf) = Ok READ ->
  Evaluate_switch bf io =
    (let '(char, _, io) := ReadRune io in
     tape ← store (Tape bf) (DP bf) (byte_of char);
     Ok (set_Tape bf tape, io)).
Proof. intros H. unfold Evaluate_switch. rewrite H. reflexivity. Qed.

(** [Evaluate_end] where the cursor stays inside the instructions *)
Lemma Evaluate_end_inside ins tape dp pc fin :
  - 2 ^ 63 <= pc -> pc + 1 < Z.of_nat (length ins) -> Z.of_nat (length ins) <= max_int ->
  Evaluate_end (mkBrainfuckProgram ins tape dp pc fin)
  = mkBrainfuckProgram ins tape dp (pc + 1) fin.
Proof.
  intros H1 H2 H3. unfold Evaluate_end. cbn [PC Instructions set_PC].
  rewrite int_incr_small by lia.
  destruct (Z.leb_spec (Z.of_nat (length ins)) (pc + 1)); [lia | reflexivity].
Qed.

(** ** Loop-open *)

(** C2. A step on a loop-open whose loop-close is at index [j]: when the
    current cell is 0, [openLoop] leaves the cursor on that loop-close, and
    the step ends with the cursor one past it, nothing else of the program
    or of the streams being changed but [Finished], set if the loop-close
    was the last instruction; when the current cell is not 0, [openLoop]
    changes nothing and the step ends with the cursor on the first
    instruction after the loop-open. *)
Theorem openLoop_skips_to_matching_close bf io i j cell :
  Z.of_nat (length (Instructions bf)) <= max_int ->
  matching (Instructions bf) i j ->
  PC bf = Z.of_nat i ->
  index (Tape bf) (DP bf) = Ok cell ->
  (cell = 0 ->
     openLoop bf = Ok (set_PC bf (Z.of_nat j)) /\
     Evaluate bf io = Ok (Evaluate_end (set_PC bf (Z.of_nat j)), io) /\
     PC (Evaluate_end (set_PC bf (Z.of_nat j))) = Z.of_nat j + 1) /\
  (cell <> 0 ->
     openLoop bf = Ok bf /\
     Evaluate bf io = Ok (set_PC bf (Z.of_nat i + 1), io)).
Proof.
  destruct bf as [ins tape dp pc fin]. cbn [Instructions PC Tape DP set_PC].
  intros Hlen Hm -> Hcell.
  assert (Hi : index ins (Z.of_nat i) = Ok LOOPL).
  { apply index_lookup, (matching_lookup _ _ _ Hm). }
  pose proof (matching_lt _ _ _ Hm) as Hlt.
  split.
  - intros ->.
    assert (Hopen : openLoop (mkBrainfuckProgram ins tape dp (Z.of_nat i) fin)
                    = Ok (mkBrainfuckProgram ins tape dp (Z.of_nat j) fin)).
    { unfold openLoop. cbn [Tape DP Instructions]. rewrite Hcell.
      cbn [mbind result_bind]. change (0 =? 0) with true. cbn iota.
      apply openLoop_for_matching; assumption. }
    split; [exact Hopen|]. split.
    + unfold Evaluate. rewrite Evaluate_switch_LOOPL by exact Hi.
      rewrite Hopen. reflexivity.
    + unfold Evaluate_end. cbn [PC Instructions set_PC set_Finished].
      rewrite int_incr_small by (unfold max_int in *; lia).
      destruct (_ <=? _); reflexivity.
  - intros Hnz.
    assert (Hopen : openLoop (mkBrainfuckProgram ins tape dp (Z.of_nat i) fin)
                    = Ok (mkBrainfuckProgram ins tape dp (Z.of_nat i) fin)).
    { unfold openLoop. cbn [Tape DP Instructions]. rewrite Hcell.
      cbn [mbind result_bind].
      destruct (Z.eqb_spec cell 0); [contradiction | reflexivity]. }
    split; [exact Hopen|].
    unfold Evaluate. rewrite Evaluate_switch_LOOPL by exact Hi.
    rewrite Hopen. cbn [mbind result_bind].
    rewrite Evaluate_end_inside by (unfold max_int in *; lia). reflexivity.
Qed.

(** ** Loop-close *)

(** C1, as the code has it.  A step on a loop-close at index [j] whose
    loop-open is at index [i]: [closeLoop] leaves the cursor one place
    before that loop-open, and the step ends with the cursor on the
    loop-open itself, nothing else of the program or of the streams being
    changed; the next step is therefore the loop-open, which tests the
    current cell again. *)
Theorem closeLoop_returns_to_matching_open bf io i j :
  Z.of_nat (length (Instructions bf)) <= max_int ->
  matching (Instructions bf) i j ->
  PC bf = Z.of_nat j ->
  closeLoop bf = Ok (set_PC bf (Z.of_nat i - 1)) /\
  Evaluate bf io = Ok (set_PC bf (Z.of_nat i), io) /\
  index (Instructions bf) (Z.of_nat i) = Ok LOOPL.
Proof.
  destruct bf as [ins tape dp pc fin]. cbn [Instructions PC Tape DP set_PC].
  intros Hlen Hm ->.
  pose proof (matching_lt _ _ _ Hm) as Hlt.
  assert (Hclose : closeLoop (mkBrainfuckProgram ins tape dp (Z.of_nat j) fin)
                   = Ok (mkBrainfuckProgram ins tape dp (Z.of_nat i - 1) fin)).
  { unfold closeLoop. cbn [Instructions]. apply closeLoop_for_matching; assumption. }
  split; [exact Hclose|]. split.
  - unfold Evaluate. rewrite Evaluate_switch_LOOPR.
    2:{ apply index_lookup, (matching_lookup _ _ _ Hm). }
    rewrite Hclose. cbn [mbind result_bind].
    rewrite Evaluate_end_inside by (unfold max_int in *; lia).
    replace (Z.of_nat i - 1 + 1) with (Z.of_nat i) by lia. reflexivity.
  - apply index_lookup, (matching_lookup _ _ _ Hm).
Qed.

Lemma matching_intro pre body post :
  balanced body ->
  matching (pre ++ LOOPL :: body ++ LOOPR :: post)
    (length pre) (length pre + 1 + length body).
Proof. intros H. exists pre, body, post. auto. Qed.

(** the tokens of ["[-]"]: the loop-open at 0 skips to the loop-close at 2 on
    a fresh tape *)
Lemma openLoop_skips_to_matching_close_witness :
  let bf := CreateBrainfuckProgram (text "[-]") in
  let io := {| stdin := []; stdout := [] |} in
  (0 = 0 ->
     openLoop bf = Ok (set_PC bf 2) /\
     Evaluate bf io = Ok (Evaluate_end (set_PC bf 2), io) /\
     PC (Evaluate_end (set_PC bf 2)) = 3) /\
  (0 <> 0 ->
     openLoop bf = Ok bf /\
     Evaluate bf io = Ok (set_PC bf 1, io)).
Proof.
  intros bf io.
  apply (openLoop_skips_to_matching_close bf io 0 2 0).
  - vm_compute. discriminate.
  - apply (matching_intro [] [DEC] []).
    apply balanced_token; [discriminate | discriminate | apply balanced_nil].
  - reflexivity.
  - vm_compute. reflexivity.
Defined.

(** C1 as it was stated fails on ["+[-]"].  After three steps the cursor is
    on the loop-close at index 3, whose loop-open is at index 1.
    [closeLoop] leaves the cursor at 0, not on the loop-open, and the step
    ends with the cursor at 1, on the loop-open, not at 2 on the first
    instruction of the body. *)
Lemma closeLoop_not_on_loop_open :
  let io := {| stdin := []; stdout := [] |} in
  exists bf,
    steps 3 (CreateBrainfuckProgram (text "+[-]")) io = Ok (bf, io) /\
    PC bf = 3 /\
    matching (Instructions bf) 1 3 /\
    closeLoop bf = Ok (set_PC bf 0) /\
    closeLoop bf <> Ok (set_PC bf 1) /\
    Evaluate bf io = Ok (set_PC bf 1, io) /\
    result_PC (Evaluate bf io) <> Some 2.
Proof.
  intros io.
  pose (bf0 := CreateBrainfuckProgram (text "+[-]")).
  exists (set_PC (set_Tape bf0 (<[0%nat:=0]> (<[0%nat:=1]> (Tape bf0)))) 3).
  split; [reflexivity|]. split; [reflexivity|]. split.
  - apply (matching_intro [INC] [DEC] []).
    apply balanced_token; [discriminate | discriminate | apply balanced_nil].
  - split; [reflexivity|]. split; [|split; [reflexivity|]].
    + intros H. apply (f_equal (fun r => match r with Ok b => PC b | _ => 0 end)) in H.
      discriminate H.
    + discriminate.
Qed.

(** the same program, the cursor on its loop-close *)
Lemma closeLoop_returns_to_matching_open_witness :
  let bf := set_PC (CreateBrainfuckProgram (text "+[-]")) 3 in
  let io := {| stdin := []; stdout := [] |} in
  closeLoop bf = Ok (set_PC bf (1 - 1)) /\
  Evaluate bf io = Ok (set_PC bf 1, io) /\
  index (Instructions bf) 1 = Ok LOOPL.
Proof.
  intros bf io.
  apply (closeLoop_returns_to_matching_open bf io 1 3).
  - vm_compute. discriminate.
  - apply (matching_intro [INC] [DEC] []).
    apply balanced_token; [discriminate | discriminate | apply balanced_nil].
  - reflexivity.
Defined.

(** ** The scans and the step always come to an end *)

Lemma index_not_Timeout {A} (s : list A) i : index s i <> Timeout.
Proof.
  unfold index. destruct (in_range s i); [|discriminate].
  destruct (s !! Z.to_nat i); discriminate.
Qed.

Lemma store_not_Timeout {A} (s : list A) i x : store s i x <> Timeout.
Proof. unfold store. destruct (in_range s i); discriminate. Qed.

(** case analysis on a slice access: a value [x] or a panic *)
Ltac case_index s i x H :=
  destruct (index s i) as [x| |] eqn:H;
  [ | | exfalso; exact (index_not_Timeout _ _ H)];
  cbn [mbind result_bind].

Ltac case_store s i v x H :=
  destruct (store s i v) as [x| |] eqn:H;
  [ | | exfalso; exact (store_not_Timeout _ _ _ H)];
  cbn [mbind result_bind].

Lemma openLoop_for_enough fuel :
  forall ins tape dp pc fin balance,
    - 2 ^ 63 <= pc <= max_int ->
    (1 <= fuel)%nat ->
    (-1 <= pc -> Z.of_nat (length ins) - pc <= Z.of_nat fuel) ->
    openLoop_for fuel (mkBrainfuckProgram ins tape dp pc fin) balance <> Timeout.
Proof.
  induction fuel as [|fuel IH]; intros ins tape dp pc fin balance Hpc Hfuel Hlen; [lia|].
  cbn [openLoop_for]. destruct (balance =? 0); [discriminate|].
  cbn [PC Instructions set_PC].
  case_index ins (int_incr pc) t Ht; [|discriminate].
  pose proof (index_Ok_inv _ _ _ Ht) as [Hr _].
  assert (Hlt : pc < max_int).
  { destruct (Z.eq_dec pc max_int) as [->|]; [|lia].
    revert Hr. change (int_incr max_int) with (- 2 ^ 63). lia. }
  rewrite int_incr_small in * by lia.
  assert (Hrec : forall b,
    openLoop_for fuel (mkBrainfuckProgram ins tape dp (pc + 1) fin) b <> Timeout).
  { intros b. apply IH; unfold max_int in *; lia. }
  destruct (t =? LOOPL); [apply Hrec|].
  destruct (t =? LOOPR); apply Hrec.
Qed.

Lemma closeLoop_for_enough fuel :
  forall ins tape dp pc fin balance,
    - 2 ^ 63 <= pc <= max_int ->
    (1 <= fuel)%nat ->
    (pc < Z.of_nat (length ins) -> pc + 2 <= Z.of_nat fuel) ->
    closeLoop_for fuel (mkBrainfuckProgram ins tape dp pc fin) balance <> Timeout.
Proof.
  induction fuel as [|fuel IH]; intros ins tape dp pc fin balance Hpc Hfuel Hlen; [lia|].
  cbn [closeLoop_for]. cbn [PC Instructions set_PC].
  case_index ins pc t Ht; [|discriminate].
  pose proof (index_Ok_inv _ _ _ Ht) as [Hr _].
  rewrite int_decr_small by (unfold max_int in *; lia).
  assert (Hrec : forall b,
    (if b =? 0 then Ok (mkBrainfuckProgram ins tape dp (pc - 1) fin)
     else closeLoop_for fuel (mkBrainfuckProgram ins tape dp (pc - 1) fin) b)
    <> Timeout).
  { intros b. destruct (b =? 0); [discriminate|].
    apply IH; unfold max_int in *; lia. }
  destruct (t =? LOOPL); cbn [mbind result_bind]; [apply Hrec|].
  destruct (t =? LOOPR); cbn [mbind result_bind]; apply Hrec.
Qed.

(** Whatever the instructions and the cursor, well-bracketed or not, the two
    scans end: with a panic or with a program. *)
Lemma openLoop_total bf :
  - 2 ^ 63 <= PC bf <= max_int -> openLoop bf <> Timeout.
Proof.
  destruct bf as [ins tape dp pc fin]. cbn [PC]. intros Hpc.
  unfold openLoop. cbn [Tape DP Instructions].
  case_index tape dp cell Hcell; [|discriminate].
  destruct (_ =? 0); [|discriminate].
  apply openLoop_for_enough; lia.
Qed.

Lemma closeLoop_total bf :
  - 2 ^ 63 <= PC bf <= max_int -> closeLoop bf <> Timeout.
Proof.
  destruct bf as [ins tape dp pc fin]. cbn [PC]. intros Hpc.
  unfold closeLoop. cbn [Instructions].
  apply closeLoop_for_enough; lia.
Qed.

(** One step ends as well: [Evaluate] gives a program or panics. *)
Lemma Evaluate_total bf io :
  Z.of_nat (length (Instructions bf)) <= max_int ->
  Evaluate bf io <> Timeout.
Proof.
  intros Hlen. unfold Evaluate.
  enough (H : Evaluate_switch bf io <> Timeout).
  { destruct (Evaluate_switch bf io) as [[bf' io']| |];
      cbn [mbind result_bind]; [discriminate | discriminate | contradiction]. }
  unfold Evaluate_switch.
  case_index (Instructions bf) (PC bf) t Ht; [|discriminate].
  apply index_Ok_inv in Ht as [Hr _].
  destruct (t =? RIGHT); [discriminate|].
  destruct (t =? LEFT); [discriminate|].
  destruct (t =? INC).
  { case_index (Tape bf) (DP bf) cell Hcell; [|discriminate].
    case_store (Tape bf) (DP bf) (byte_incr cell) tape Htape; discriminate. }
  destruct (t =? DEC).
  { case_index (Tape bf) (DP bf) cell Hcell; [|discriminate].
    case_store (Tape bf) (DP bf) (byte_decr cell) tape Htape; discriminate. }
  destruct (t =? PRINT).
  { case_index (Tape bf) (DP bf) cell Hcell; discriminate. }
  destruct (t =? READ).
  { destruct (ReadRune io) as [[char err] io'].
    case_store (Tape bf) (DP bf) (byte_of char) tape Htape; discriminate. }
  destruct (t =? LOOPL).
  { pose proof (openLoop_total bf) as Ho.
    destruct (openLoop bf); cbn [mbind result_bind]; try discriminate.
    exfalso. apply Ho; [unfold max_int in *; lia | reflexivity]. }
  destruct (t =? LOOPR).
  { pose proof (closeLoop_total bf) as Hc.
    destruct (closeLoop bf); cbn [mbind result_bind]; try discriminate.
    exfalso. apply Hc; [unfold max_int in *; lia | reflexivity]. }
  discriminate.
Qed.

(** ** Whole runs *)

Lemma run_trace_more fuel :
  forall bf io r k,
    run_trace fuel bf io = Ok r -> run_trace (fuel + k) bf io = Ok r.
Proof.
  induction fuel as [|fuel IH]; intros bf io r k.
  - cbn [run_trace Nat.add]. destruct (Finished bf) eqn:Hfin; [|discriminate].
    intros H. destruct k; cbn [run_trace]; rewrite Hfin; exact H.
  - cbn [run_trace Nat.add]. destruct (Finished bf); [auto|].
    destruct (Evaluate bf io) as [[bf' io']| |]; cbn [mbind result_bind];
      [|discriminate|discriminate].
    destruct (run_trace fuel bf' io') as [r'| |] eqn:Hrec; cbn [mbind result_bind];
      [|discriminate|discriminate].
    rewrite (IH _ _ _ k Hrec). auto.
Qed.

(** [run_trace] is [run] with the cursors recorded, and [steps] stops where
    [run] does when [run] comes to its end. *)
Lemma run_trace_run fuel :
  forall bf io,
    run fuel bf io
    = match run_trace fuel bf io with
      | Ok (bf', io', _) => Ok (bf', io')
      | Panic e => Panic e
      | Timeout => Timeout
      end.
Proof.
  induction fuel as [|fuel IH]; intros bf io; cbn [run run_trace].
  - destruct (Finished bf); reflexivity.
  - destruct (Finished bf); [reflexivity|].
    destruct (Evaluate bf io) as [[bf' io']| |]; cbn [mbind result_bind];
      [|reflexivity|reflexivity].
    rewrite IH. destruct (run_trace fuel bf' io') as [[[bf2 io2] pcs]| |]; reflexivity.
Qed.

Lemma run_steps fuel :
  forall bf io r, run fuel bf io = Ok r -> steps fuel bf io = Ok r.
Proof.
  induction fuel as [|fuel IH]; intros bf io r; cbn [run steps].
  - destruct (Finished bf); [auto | discriminate].
  - destruct (Finished bf); [auto|].
    destruct (Evaluate bf io) as [[bf' io']| |]; cbn [mbind result_bind];
      [apply IH | discriminate | discriminate].
Qed.

(** C3, with the number of steps that the code takes.  On ["+[-]"], whatever
    the input, the caller's loop makes five calls of [Evaluate], at the
    cursors 0, 1, 2, 3 and 1: the body of the loop, index 2, is executed once;
    the cell is 1 after the first step and 0 after the third; the fourth
    step, the loop-close, goes back to the loop-open, and the fifth, the
    loop-open on a cell that is 0, skips to the end.  The run ends with
    [Finished] set and nothing printed, as soon as five iterations are
    allowed. *)
Theorem plus_loop_minus_takes_five_steps (input : list rune) (fuel : nat) :
  let bf0 := CreateBrainfuckProgram (text "+[-]") in
  let io := {| stdin := input; stdout := [] |} in
  (5 <= fuel)%nat ->
  observe (steps 1 bf0 io) = Some (1, 0, false, Some 1, []) /\
  observe (steps 2 bf0 io) = Some (2, 0, false, Some 1, []) /\
  observe (steps 3 bf0 io) = Some (3, 0, false, Some 0, []) /\
  observe (steps 4 bf0 io) = Some (1, 0, false, Some 0, []) /\
  observe (steps 5 bf0 io) = Some (4, 0, true, Some 0, []) /\
  exists bf,
    run_trace fuel bf0 io = Ok (bf, io, [0; 1; 2; 3; 1]) /\
    run fuel bf0 io = Ok (bf, io) /\
    Finished bf = true.
Proof.
  intros bf0 io Hfuel.
  do 5 (split; [reflexivity|]).
  exists (mkBrainfuckProgram (Instructions bf0)
            (<[0%nat:=0]> (<[0%nat:=1]> (Tape bf0))) 0 4 true).
  replace fuel with (5 + (fuel - 5))%nat by lia.
  split; [|split; [|reflexivity]].
  - apply run_trace_more. reflexivity.
  - generalize (fuel - 5)%nat. intros k. destruct k; reflexivity.
Qed.

Lemma plus_loop_minus_takes_five_steps_witness :
  let bf0 := CreateBrainfuckProgram (text "+[-]") in
  let io := {| stdin := [65]; stdout := [] |} in
  observe (steps 1 bf0 io) = Some (1, 0, false, Some 1, []) /\
  observe (steps 2 bf0 io) = Some (2, 0, false, Some 1, []) /\
  observe (steps 3 bf0 io) = Some (3, 0, false, Some 0, []) /\
  observe (steps 4 bf0 io) = Some (1, 0, false, Some 0, []) /\
  observe (steps 5 bf0 io) = Some (4, 0, true, Some 0, []) /\
  exists bf,
    run_trace 8 bf0 io = Ok (bf, io, [0; 1; 2; 3; 1]) /\
    run 8 bf0 io = Ok (bf, io) /\
    Finished bf = true.
Proof.
  intros bf0 io.
  apply (plus_loop_minus_takes_five_steps [65] 8). lia.
Defined.

(** C3 as it was stated fails: after four steps of ["+[-]"] the program is
    not finished, the cursor being back on the loop-open; the run takes five
    steps. *)
Lemma plus_loop_minus_not_four_steps :
  let bf0 := CreateBrainfuckProgram (text "+[-]") in
  let io := {| stdin := []; stdout := [] |} in
  observe (steps 4 bf0 io) = Some (1, 0, false, Some 0, []) /\
  observe (run 4 bf0 io) = None /\
  exists bf pcs,
    run_trace 5 bf0 io = Ok (bf, io, pcs) /\ Finished bf = true /\
    length pcs <> 4%nat.
Proof.
  intros bf0 io. split; [reflexivity|]. split; [reflexivity|].
  exists (mkBrainfuckProgram (Instructions bf0)
            (<[0%nat:=0]> (<[0%nat:=1]> (Tape bf0))) 0 4 true), [0; 1; 2; 3; 1].
  split; [reflexivity|]. split; [reflexivity|]. discriminate.
Qed.

(** ** The tokenizer *)

Lemma tokenize_char_appends tokenized c :
  tokenize_char tokenized c = tokenized ++ [token_of_char c].
Proof.
  unfold tokenize_char, token_of_char.
  repeat (destruct (c =? _); [reflexivity|]). reflexivity.
Qed.

Lemma tokenize_loop input :
  forall tokenized,
    fold_left tokenize_char input tokenized = tokenized ++ (token_of_char <$> input).
Proof.
  induction input as [|c input IH]; intros tokenized; cbn [fold_left fmap list_fmap].
  - rewrite app_nil_r. reflexivity.
  - rewrite IH, tokenize_char_appends, <- app_assoc. reflexivity.
Qed.

Lemma tokenize_Instructions bf input :
  Instructions (tokenize bf input) = token_of_char <$> input.
Proof. unfold tokenize. cbn [Instructions set_Instructions]. apply tokenize_loop. Qed.

(** C5. [tokenize] gives one token per character, in the order of the
    text: the token at index [i] is the one of the character at index [i],
    that is the move, arithmetic, output, input or bracket token of the eight
    symbols and [COMMENT] for any other character; so there are as many
    instructions as characters.  Nothing else of the program is changed. *)
Theorem tokenize_one_token_per_character bf (input : list rune) :
  length (Instructions (tokenize bf input)) = length input /\
  (forall (i : nat) (c : rune), input !! i = Some c ->
     exists t, Instructions (tokenize bf input) !! i = Some t /\
       (c = chr ">" -> t = RIGHT) /\
       (c = chr "<" -> t = LEFT) /\
       (c = chr "+" -> t = INC) /\
       (c = chr "-" -> t = DEC) /\
       (c = chr "." -> t = PRINT) /\
       (c = chr "," -> t = READ) /\
       (c = chr "[" -> t = LOOPL) /\
       (c = chr "]" -> t = LOOPR) /\
       (c <> chr ">" -> c <> chr "<" -> c <> chr "+" -> c <> chr "-" ->
        c <> chr "." -> c <> chr "," -> c <> chr "[" -> c <> chr "]" ->
        t = COMMENT)) /\
  Tape (tokenize bf input) = Tape bf /\
  DP (tokenize bf input) = DP bf /\
  PC (tokenize bf input) = PC bf /\
  Finished (tokenize bf input) = Finished bf.
Proof.
  rewrite tokenize_Instructions. split; [apply length_fmap|].
  split; [|repeat split].
  intros i c Hc. exists (token_of_char c). split.
  - rewrite list_lookup_fmap, Hc. reflexivity.
  - repeat split; try (intros ->; reflexivity).
    intros H1 H2 H3 H4 H5 H6 H7 H8. unfold token_of_char.
    repeat match goal with
           | |- context [c =? ?k] => destruct (Z.eqb_spec c k); [contradiction|]
           end.
    reflexivity.
Qed.

(** the text ["a[+]"], whose character at index 1 is the loop-open *)
Lemma tokenize_one_token_per_character_witness :
  exists t,
    Instructions (tokenize (CreateBrainfuckProgram []) (text "a[+]")) !! 1%nat = Some t /\
    t = LOOPL.
Proof.
  destruct (tokenize_one_token_per_character (CreateBrainfuckProgram []) (text "a[+]"))
    as (_ & H & _).
  destruct (H 1%nat (chr "[") eq_refl) as (t & Ht & _ & _ & _ & _ & _ & _ & HL & _).
  exists t. split; [exact Ht | exact (HL eq_refl)].
Defined.

(** ** Brackets without a partner *)

(** C6. On the text ["["] with its fresh tape the scan of [openLoop] moves
    the cursor to 1 and reads [Instructions[1]] of a slice of length 1; on
    the text ["]"] the scan of [closeLoop] moves the cursor to -1 and reads
    [Instructions[-1]].  Both are panics of the step, and the caller's loop
    ends with the same panic: nothing catches it. *)
Theorem unmatched_bracket_panics (io : Stdio) (fuel : nat) :
  let open := CreateBrainfuckProgram (text "[") in
  let close := CreateBrainfuckProgram (text "]") in
  (index (Tape open) (DP open) = Ok 0 /\
   openLoop open = Panic (IndexOutOfRange 1 1) /\
   Evaluate open io = Panic (IndexOutOfRange 1 1) /\
   run (S fuel) open io = Panic (IndexOutOfRange 1 1)) /\
  (closeLoop close = Panic (IndexOutOfRange (-1) 1) /\
   Evaluate close io = Panic (IndexOutOfRange (-1) 1) /\
   run (S fuel) close io = Panic (IndexOutOfRange (-1) 1)).
Proof. repeat split; reflexivity. Qed.

(** ** Reading at the end of the input *)

(** C7, as the code has it.  A step on [READ] with the input at its end and
    the data cursor inside the tape stores [byte(0)], that is 0, in the
    current cell, whatever the cell held; the streams are not changed. *)
Theorem read_at_end_of_input_stores_zero bf io :
  index (Instructions bf) (PC bf) = Ok READ ->
  stdin io = [] ->
  0 <= DP bf < Z.of_nat (length (Tape bf)) ->
  Evaluate bf io
  = Ok (Evaluate_end (set_Tape bf (<[Z.to_nat (DP bf) := 0]> (Tape bf))), io) /\
  Tape (Evaluate_end (set_Tape bf (<[Z.to_nat (DP bf) := 0]> (Tape bf))))
    !! Z.to_nat (DP bf) = Some 0.
Proof.
  intros Hread Hin Hdp. split.
  - unfold Evaluate. rewrite Evaluate_switch_READ by exact Hread.
    unfold ReadRune. rewrite Hin. unfold store.
    apply in_range_spec in Hdp. rewrite Hdp. reflexivity.
  - assert (Htape : forall b, Tape (Evaluate_end b) = Tape b).
    { intros b. unfold Evaluate_end. destruct (_ <=? _); reflexivity. }
    rewrite Htape. cbn [Tape set_Tape].
    apply list_lookup_insert_eq. lia.
Qed.

(** the second step of ["+,"] with no input *)
Lemma read_at_end_of_input_stores_zero_witness :
  let bf0 := CreateBrainfuckProgram (text "+,") in
  let bf := set_PC (set_Tape bf0 (<[0%nat:=1]> (Tape bf0))) 1 in
  let io := {| stdin := []; stdout := [] |} in
  Evaluate bf io
  = Ok (Evaluate_end (set_Tape bf (<[Z.to_nat (DP bf) := 0]> (Tape bf))), io) /\
  Tape (Evaluate_end (set_Tape bf (<[Z.to_nat (DP bf) := 0]> (Tape bf))))
    !! Z.to_nat (DP bf) = Some 0.
Proof.
  intros bf0 bf io.
  apply (read_at_end_of_input_stores_zero bf io).
  - reflexivity.
  - reflexivity.
  - vm_compute. split; [discriminate | reflexivity].
Defined.

(** C7 as it was stated fails on ["+,"] with no input: the cell holds 1
    after the first step and 0, not 1, after the [READ]. *)
Lemma read_at_end_of_input_changes_cell :
  let bf0 := CreateBrainfuckProgram (text "+,") in
  let io := {| stdin := []; stdout := [] |} in
  ReadRune io = (0, true, io) /\
  observe (steps 1 bf0 io) = Some (1, 0, false, Some 1, []) /\
  observe (steps 2 bf0 io) = Some (2, 0, true, Some 0, []) /\
  observe (steps 2 bf0 io) <> Some (2, 0, true, Some 1, []).
Proof. intros bf0 io. repeat split; try reflexivity. discriminate. Qed.

(** ** Creation *)

(** C8. [CreateBrainfuckProgram] gives, for equal texts, equal programs:
    the instructions are the tokens of the characters, the tape has 64000
    cells that all hold 0, both cursors are 0 and [Finished] is false.  The
    function has the text as its only argument and gives only the program. *)
Theorem CreateBrainfuckProgram_deterministic (input1 input2 : list rune) :
  input1 = input2 ->
  CreateBrainfuckProgram input1 = CreateBrainfuckProgram input2 /\
  Instructions (CreateBrainfuckProgram input1) = token_of_char <$> input2 /\
  Tape (CreateBrainfuckProgram input1) = Tape (CreateBrainfuckProgram input2) /\
  Z.of_nat (length (Tape (CreateBrainfuckProgram input1))) = 64000 /\
  (forall i : nat, (i < length (Tape (CreateBrainfuckProgram input1)))%nat ->
     Tape (CreateBrainfuckProgram input1) !! i = Some 0) /\
  DP (CreateBrainfuckProgram input1) = 0 /\
  PC (CreateBrainfuckProgram input1) = 0 /\
  Finished (CreateBrainfuckProgram input1) = false.
Proof.
  intros ->. split; [reflexivity|]. split; [apply tokenize_Instructions|].
  split; [reflexivity|].
  unfold CreateBrainfuckProgram, tokenize. cbn [Tape DP PC Finished set_Instructions].
  rewrite length_replicate. split; [apply Z2Nat.id; discriminate|].
  split; [|auto]. intros i Hi. apply lookup_replicate_2. exact Hi.
Qed.

Lemma CreateBrainfuckProgram_deterministic_witness :
  let bf := CreateBrainfuckProgram (text "+[-]") in
  bf = CreateBrainfuckProgram (text "+[-]") /\
  Instructions bf = token_of_char <$> text "+[-]" /\
  Tape bf = Tape (CreateBrainfuckProgram (text "+[-]")) /\
  Z.of_nat (length (Tape bf)) = 64000 /\
  (forall i : nat, (i < length (Tape bf))%nat -> Tape bf !! i = Some 0) /\
  DP bf = 0 /\ PC bf = 0 /\ Finished bf = false.
Proof.
  intros bf.
  apply (CreateBrainfuckProgram_deterministic (text "+[-]") (text "+[-]")).
  reflexivity.
Defined.

(** ** Cell arithmetic *)

(** C9, with what the step does to [Finished].  A step on [INC] (on [DEC])
    with the data cursor inside the tape replaces the current cell [c] by
    [(c + 1) mod 256] (by [(c - 1) mod 256]): 255 becomes 0 (0 becomes 255).
    Of the rest, the instructions, the other cells, the data cursor and the
    streams are not changed, the instruction cursor is incremented, and
    [Finished] is set when the incremented cursor has left the
    instructions. *)
Theorem cell_arithmetic_wraps bf io (c : Z) :
  Z.of_nat (length (Instructions bf)) <= max_int ->
  index (Tape bf) (DP bf) = Ok c ->
  let step (c' : Z) :=
    Ok ({| Instructions := Instructions bf;
           Tape := <[Z.to_nat (DP bf) := c']> (Tape bf);
           DP := DP bf;
           PC := PC bf + 1;
           Finished :=
             Finished bf || (Z.of_nat (length (Instructions bf)) <=? PC bf + 1) |},
        io) in
  (index (Instructions bf) (PC bf) = Ok INC ->
     Evaluate bf io = step ((c + 1) mod 256) /\
     (c = 255 -> Evaluate bf io = step 0)) /\
  (index (Instructions bf) (PC bf) = Ok DEC ->
     Evaluate bf io = step ((c - 1) mod 256) /\
     (c = 0 -> Evaluate bf io = step 255)).
Proof.
  intros Hlen Hc step.
  assert (Hstore : forall x,
    store (Tape bf) (DP bf) x = Ok (<[Z.to_nat (DP bf) := x]> (Tape bf))).
  { intros x. unfold store. apply index_Ok_inv in Hc as [Hr _].
    apply in_range_spec in Hr. rewrite Hr. reflexivity. }
  assert (Hstep : forall t c',
    index (Instructions bf) (PC bf) = Ok t ->
    Ok (Evaluate_end (set_Tape bf (<[Z.to_nat (DP bf) := c']> (Tape bf))), io)
    = step c').
  { intros t c' Ht. apply index_Ok_inv in Ht as [Hr _]. subst step.
    clear Hc Hstore. destruct bf as [ins tape dp pc fin].
    cbn [Instructions PC Tape DP set_Tape] in *.
    unfold Evaluate_end. cbn [Instructions PC set_PC set_Tape].
    rewrite int_incr_small by (unfold max_int in *; lia).
    destruct (_ <=? _); cbn [set_Finished Instructions Tape DP PC Finished];
      rewrite ?orb_true_r, ?orb_false_r; reflexivity. }
  split; intros Ht.
  - assert (He : Evaluate bf io = step ((c + 1) mod 256)).
    { unfold Evaluate. rewrite Evaluate_switch_INC by exact Ht.
      rewrite Hc. cbn [mbind result_bind]. rewrite Hstore.
      cbn [mbind result_bind]. apply (Hstep INC). exact Ht. }
    split; [exact He|]. intros ->. exact He.
  - assert (He : Evaluate bf io = step ((c - 1) mod 256)).
    { unfold Evaluate. rewrite Evaluate_switch_DEC by exact Ht.
      rewrite Hc. cbn [mbind result_bind]. rewrite Hstore.
      cbn [mbind result_bind]. apply (Hstep DEC). exact Ht. }
    split; [exact He|]. intros ->. exact He.
Qed.

(** the only step of ["-"]: the cell 0 becomes 255 *)
Lemma cell_arithmetic_wraps_witness :
  let bf := CreateBrainfuckProgram (text "-") in
  let io := {| stdin := []; stdout := [] |} in
  Evaluate bf io
  = Ok ({| Instructions := Instructions bf;
           Tape := <[Z.to_nat (DP bf) := 255]> (Tape bf);
           DP := DP bf;
           PC := PC bf + 1;
           Finished :=
             Finished bf || (Z.of_nat (length (Instructions bf)) <=? PC bf + 1) |},
        io).
Proof.
  intros bf io.
  refine (proj2 (proj2 (cell_arithmetic_wraps bf io 0 _ _) _) eq_refl).
  - vm_compute. discriminate.
  - reflexivity.
  - reflexivity.
Defined.

(** C9 as it was stated fails on ["-"]: the step that takes the cell from 0
    to 255 also sets [Finished], which was false; the result is not the
    program with only the cell and the instruction cursor changed. *)
Lemma decrement_as_last_step_sets_Finished :
  let bf := CreateBrainfuckProgram (text "-") in
  let io := {| stdin := []; stdout := [] |} in
  index (Instructions bf) (PC bf) = Ok DEC /\
  index (Tape bf) (DP bf) = Ok 0 /\
  Finished bf = false /\
  observe (Evaluate bf io) = Some (1, 0, true, Some 255, []) /\
  Evaluate bf io
  <> Ok (set_PC (set_Tape bf (<[Z.to_nat (DP bf) := 255]> (Tape bf))) (PC bf + 1), io).
Proof.
  intros bf io. do 4 (split; [reflexivity|]).
  intros H.
  apply (f_equal (fun r => match r with Ok (b, _) => Finished b | _ => false end)) in H.
  discriminate H.
Qed.

(** ** A step with the cursor at the end *)

(** C10. [Evaluate] reads [Instructions[PC]] first, whatever [Finished]
    is: with the cursor at the length of the instructions the step panics.
    The program made from the empty text has no instruction and [Finished]
    false, so the caller's loop calls [Evaluate] and ends with that panic at
    its first iteration. *)
Theorem Evaluate_at_end_panics bf io (fuel : nat) :
  PC bf = Z.of_nat (length (Instructions bf)) ->
  Evaluate bf io
  = Panic (IndexOutOfRange (PC bf) (Z.of_nat (length (Instructions bf)))) /\
  Instructions (CreateBrainfuckProgram []) = [] /\
  Finished (CreateBrainfuckProgram []) = false /\
  run (S fuel) (CreateBrainfuckProgram []) io = Panic (IndexOutOfRange 0 0).
Proof.
  intros Hpc. split; [|repeat split].
  unfold Evaluate, Evaluate_switch.
  rewrite (index_outside (Instructions bf) (PC bf)) by lia. reflexivity.
Qed.

(** the program of ["+"] after its only step: [Finished] is true, and one
    more step panics *)
Lemma Evaluate_at_end_panics_witness :
  let bf0 := CreateBrainfuckProgram (text "+") in
  let bf := mkBrainfuckProgram (Instructions bf0) (<[0%nat:=1]> (Tape bf0)) 0 1 true in
  let io := {| stdin := []; stdout := [] |} in
  Evaluate bf0 io = Ok (bf, io) /\
  Evaluate bf io = Panic (IndexOutOfRange 1 1).
Proof.
  intros bf0 bf io. split; [reflexivity|].
  apply (Evaluate_at_end_panics bf io 0). reflexivity.
Defined.

(** ** The cursor invariant and the empty text *)

(** C4 on the empty text.  Its instructions are well-bracketed, yet the
    program is created with [Finished] false and the cursor equal to the
    number of instructions, 0: the cursor is no index when the first step
    begins, and that step panics. *)
Theorem empty_text_breaks_cursor_invariant (io : Stdio) :
  let bf := CreateBrainfuckProgram [] in
  balanced (Instructions bf) /\
  Finished bf = false /\
  PC bf = Z.of_nat (length (Instructions bf)) /\
  in_range (Instructions bf) (PC bf) = false /\
  steps 1 bf io = Panic (IndexOutOfRange 0 0).
Proof. intros bf. split; [apply balanced_nil|]. repeat split. Qed.

(** ** In well-bracketed instructions every bracket has its partner *)

Lemma matching_cons t l i j : matching l i j -> matching (t :: l) (S i) (S j).
Proof.
  intros (pre & body & post & -> & Hb & -> & ->).
  exists (t :: pre), body, post. cbn [length app]. auto.
Qed.

Lemma matching_app_r l q i j : matching l i j -> matching (l ++ q) i j.
Proof.
  intros (pre & body & post & -> & Hb & -> & ->).
  exists pre, body, (post ++ q). repeat split; [|assumption].
  rewrite <- app_assoc. cbn [app]. rewrite <- app_assoc. reflexivity.
Qed.

Lemma matching_prefix p l i j :
  matching l i j -> matching (p ++ l) (length p + i) (length p + j).
Proof.
  intros H. induction p as [|t p IH]; [exact H|].
  cbn [app length Nat.add]. apply matching_cons, IH.
Qed.

Lemma balanced_loop_shape body l :
  (LOOPL :: body ++ [LOOPR]) ++ l = LOOPL :: body ++ LOOPR :: l.
Proof. cbn [app]. rewrite <- app_assoc. reflexivity. Qed.

Lemma balanced_open_has_close l :
  balanced l -> forall i, l !! i = Some LOOPL -> exists j, matching l i j.
Proof.
  induction 1 as [|t l Hl Hr Hbal IH|body l Hbody IHbody Hl IHl]; intros i Hi.
  - rewrite lookup_nil in Hi. discriminate.
  - destruct i as [|i]; cbn in Hi.
    + injection Hi as ->. contradiction.
    + destruct (IH i Hi) as [j Hj]. exists (S j). apply matching_cons, Hj.
  - destruct i as [|i].
    + exists (0 + 1 + length body)%nat. apply (matching_intro [] body l Hbody).
    + change ((body ++ LOOPR :: l) !! i = Some LOOPL) in Hi.
      destruct (lt_dec i (length body)) as [Hlt|Hge].
      * rewrite lookup_app_l in Hi by exact Hlt.
        destruct (IHbody i Hi) as [j Hj]. exists (S j).
        apply matching_cons, matching_app_r, Hj.
      * rewrite lookup_app_r in Hi by lia.
        destruct (i - length body)%nat as [|k] eqn:Hk; [discriminate|].
        change (l !! k = Some LOOPL) in Hi.
        destruct (IHl k Hi) as [j Hj].
        exists (length (LOOPL :: body ++ [LOOPR]) + j)%nat.
        rewrite <- balanced_loop_shape.
        replace (S i) with (length (LOOPL :: body ++ [LOOPR]) + k)%nat
          by (cbn [length]; rewrite length_app; cbn [length]; lia).
        apply matching_prefix, Hj.
Qed.

Lemma balanced_close_has_open l :
  balanced l -> forall j, l !! j = Some LOOPR -> exists i, matching l i j.
Proof.
  induction 1 as [|t l Hl Hr Hbal IH|body l Hbody IHbody Hl IHl]; intros j Hj.
  - rewrite lookup_nil in Hj. discriminate.
  - destruct j as [|j]; cbn in Hj.
    + injection Hj as ->. contradiction.
    + destruct (IH j Hj) as [i Hi]. exists (S i). apply matching_cons, Hi.
  - destruct j as [|j]; [discriminate|].
    change ((body ++ LOOPR :: l) !! j = Some LOOPR) in Hj.
    destruct (lt_dec j (length body)) as [Hlt|Hge].
    + rewrite lookup_app_l in Hj by exact Hlt.
      destruct (IHbody j Hj) as [i Hi]. exists (S i).
      apply matching_cons, matching_app_r, Hi.
    + rewrite lookup_app_r in Hj by lia.
      destruct (j - length body)%nat as [|k] eqn:Hk.
      * exists 0%nat. replace (S j) with (0 + 1 + length body)%nat by lia.
        apply (matching_intro [] body l Hbody).
      * change (l !! k = Some LOOPR) in Hj. destruct (IHl k Hj) as [i Hi].
        exists (length (LOOPL :: body ++ [LOOPR]) + i)%nat.
        rewrite <- balanced_loop_shape.
        replace (S j) with (length (LOOPL :: body ++ [LOOPR]) + k)%nat
          by (cbn [length]; rewrite length_app; cbn [length]; lia).
        apply matching_prefix, Hi.
Qed.

(** ** The cursor invariant on well-bracketed instructions *)

Lemma Evaluate_switch_other bf io t bf' io' :
  index (Instructions bf) (PC bf) = Ok t -> t <> LOOPL -> t <> LOOPR ->
  Evaluate_switch bf io = Ok (bf', io') ->
  Instructions bf' = Instructions bf /\ PC bf' = PC bf /\ Finished bf' = Finished bf.
Proof.
  intros Ht Hl Hr. unfold Evaluate_switch. rewrite Ht. cbn [mbind result_bind].
  destruct (t =? RIGHT); [intros [= <- <-]; auto|].
  destruct (t =? LEFT); [intros [= <- <-]; auto|].
  destruct (t =? INC).
  { case_index (Tape bf) (DP bf) cell Hcell; [|discriminate].
    case_store (Tape bf) (DP bf) (byte_incr cell) tape Htape; [|discriminate].
    intros [= <- <-]; auto. }
  destruct (t =? DEC).
  { case_index (Tape bf) (DP bf) cell Hcell; [|discriminate].
    case_store (Tape bf) (DP bf) (byte_decr cell) tape Htape; [|discriminate].
    intros [= <- <-]; auto. }
  destruct (t =? PRINT).
  { case_index (Tape bf) (DP bf) cell Hcell; [|discriminate].
    intros [= <- <-]; auto. }
  destruct (t =? READ).
  { destruct (ReadRune io) as [[char err] io1].
    case_store (Tape bf) (DP bf) (byte_of char) tape Htape; [|discriminate].
    intros [= <- <-]; auto. }
  destruct (Z.eqb_spec t LOOPL); [contradiction|].
  destruct (Z.eqb_spec t LOOPR); [contradiction|].
  intros [= <- <-]; auto.
Qed.

(** A step from a cursor inside well-bracketed instructions, when it gives a
    program, keeps the instructions, leaves the cursor between 0 and their
    number, and sets [Finished] exactly when the cursor is that number. *)
Lemma Evaluate_keeps_cursor_invariant bf io bf' io' :
  balanced (Instructions bf) ->
  Z.of_nat (length (Instructions bf)) <= max_int ->
  Finished bf = false ->
  0 <= PC bf < Z.of_nat (length (Instructions bf)) ->
  Evaluate bf io = Ok (bf', io') ->
  Instructions bf' = Instructions bf /\
  0 <= PC bf' <= Z.of_nat (length (Instructions bf)) /\
  (Finished bf' = true <-> Z.of_nat (length (Instructions bf)) <= PC bf').
Proof.
  intros Hbal Hlen Hfin Hpc.
  destruct (lookup_lt_is_Some_2 (Instructions bf) (Z.to_nat (PC bf))) as [t Hlook];
    [lia|].
  assert (Ht : index (Instructions bf) (PC bf) = Ok t).
  { rewrite <- (Z2Nat.id (PC bf)) by lia. apply index_lookup, Hlook. }
  destruct bf as [ins tape dp pc fin].
  cbn [Instructions PC Tape DP Finished] in *. subst fin.
  assert (Hend : forall tape' dp' pc',
    0 <= pc' + 1 <= Z.of_nat (length ins) ->
    let bf1 := Evaluate_end (mkBrainfuckProgram ins tape' dp' pc' false) in
    Instructions bf1 = ins /\
    0 <= PC bf1 <= Z.of_nat (length ins) /\
    (Finished bf1 = true <-> Z.of_nat (length ins) <= PC bf1)).
  { intros tape' dp' pc' Hr. unfold Evaluate_end. cbn [Instructions PC set_PC].
    rewrite int_incr_small by (unfold max_int in *; lia).
    destruct (Z.leb_spec (Z.of_nat (length ins)) (pc' + 1));
      cbn [Instructions PC Finished set_Finished set_PC];
      (split; [reflexivity|]); (split; [lia|]); split; intros; congruence || lia. }
  unfold Evaluate.
  destruct (Z.eq_dec t LOOPL) as [->|Hnl]; [|destruct (Z.eq_dec t LOOPR) as [->|Hnr]].
  - (* loop-open *)
    destruct (balanced_open_has_close ins Hbal _ Hlook) as [j Hm].
    pose proof (matching_lt _ _ _ Hm) as Hlt.
    rewrite Evaluate_switch_LOOPL by exact Ht.
    unfold openLoop. cbn [Tape DP Instructions].
    case_index tape dp cell Hcell; [|discriminate].
    destruct (cell =? 0).
    + rewrite <- (Z2Nat.id pc) by lia.
      rewrite (openLoop_for_matching ins tape dp false _ j Hlen Hm).
      cbn [mbind result_bind]. intros [= <- <-]. apply Hend. lia.
    + cbn [mbind result_bind]. intros [= <- <-]. apply Hend. lia.
  - (* loop-close *)
    destruct (balanced_close_has_open ins Hbal _ Hlook) as [i Hm].
    pose proof (matching_lt _ _ _ Hm) as Hlt.
    rewrite Evaluate_switch_LOOPR by exact Ht.
    unfold closeLoop. cbn [Instructions].
    rewrite <- (Z2Nat.id pc) by lia.
    rewrite (closeLoop_for_matching ins tape dp false i _ Hlen Hm).
    cbn [mbind result_bind]. intros [= <- <-]. apply Hend. lia.
  - (* any other token *)
    destruct (Evaluate_switch (mkBrainfuckProgram ins tape dp pc false) io)
      as [[bf1 io1]| |] eqn:Hsw; cbn [mbind result_bind]; [|discriminate|discriminate].
    destruct (Evaluate_switch_other (mkBrainfuckProgram ins tape dp pc false)
                _ _ _ _ Ht Hnl Hnr Hsw) as (Hi & Hp & Hf).
    cbn [Instructions PC Finished] in Hi, Hp, Hf.
    destruct bf1 as [ins1 tape1 dp1 pc1 fin1].
    cbn [Instructions PC Finished] in Hi, Hp, Hf. subst ins1 pc1 fin1.
    intros [= <- <-]. apply Hend. lia.
Qed.

Lemma steps_keep_cursor_invariant n :
  forall bf io bf' io',
    balanced (Instructions bf) ->
    Z.of_nat (length (Instructions bf)) <= max_int ->
    0 <= PC bf <= Z.of_nat (length (Instructions bf)) ->
    (Finished bf = true <-> Z.of_nat (length (Instructions bf)) <= PC bf) ->
    steps n bf io = Ok (bf', io') ->
    Instructions bf' = Instructions bf /\
    0 <= PC bf' <= Z.of_nat (length (Instructions bf)) /\
    (Finished bf' = true <-> Z.of_nat (length (Instructions bf)) <= PC bf').
Proof.
  induction n as [|n IH]; intros bf io bf' io' Hbal Hlen Hpc Hfin; cbn [steps].
  - intros [= <- <-]. auto.
  - destruct (Finished bf) eqn:Hf; [intros [= <- <-]; rewrite Hf; auto|].
    assert (Hin : 0 <= PC bf < Z.of_nat (length (Instructions bf))).
    { split; [lia|]. destruct (Z.lt_ge_cases (PC bf) (Z.of_nat (length (Instructions bf))))
        as [Hlt|Hge]; [exact Hlt|]. apply Hfin in Hge. discriminate. }
    destruct (Evaluate bf io) as [[bf1 io1]| |] eqn:He; cbn [mbind result_bind];
      [|discriminate|discriminate].
    destruct (Evaluate_keeps_cursor_invariant _ _ _ _ Hbal Hlen Hf Hin He)
      as (Hi1 & Hp1 & Hf1).
    intros Hsteps. rewrite <- Hi1 in *.
    destruct (IH bf1 io1 bf' io' Hbal Hlen Hp1 Hf1 Hsteps) as (Hi2 & Hp2 & Hf2).
    auto.
Qed.

(** The cursor invariant, for every text that is not empty and whose tokens
    are well-bracketed: in every program that the caller's loop reaches, the
    instructions are those of the text, the cursor is between 0 and their
    number, [Finished] is set exactly when the cursor is that number, and
    when [Finished] is not set the cursor is the index of an instruction. *)
Lemma cursor_invariant_of_balanced_text (input : list rune) io n bf io' :
  input <> [] ->
  balanced (token_of_char <$> input) ->
  Z.of_nat (length input) <= max_int ->
  steps n (CreateBrainfuckProgram input) io = Ok (bf, io') ->
  Instructions bf = token_of_char <$> input /\
  0 <= PC bf <= Z.of_nat (length input) /\
  (Finished bf = true <-> Z.of_nat (length input) <= PC bf) /\
  (Finished bf = false -> exists t, index (Instructions bf) (PC bf) = Ok t).
Proof.
  intros Hne Hbal Hlen Hsteps.
  pose proof (tokenize_Instructions
                {| Instructions := []; Tape := replicate tape_length 0;
                   DP := 0; PC := 0; Finished := false |} input) as Hins.
  change (tokenize _ input) with (CreateBrainfuckProgram input) in Hins.
  assert (Hl : length (Instructions (CreateBrainfuckProgram input)) = length input).
  { rewrite Hins. apply length_fmap. }
  assert (Hpos : (0 < length input)%nat).
  { destruct input; [contradiction | cbn [length]; lia]. }
  destruct (steps_keep_cursor_invariant n (CreateBrainfuckProgram input) io bf io')
    as (Hi & Hp & Hf).
  - rewrite Hins. exact Hbal.
  - rewrite Hl. exact Hlen.
  - rewrite Hl. change (PC (CreateBrainfuckProgram input)) with 0. lia.
  - rewrite Hl. change (PC (CreateBrainfuckProgram input)) with 0.
    change (Finished (CreateBrainfuckProgram input)) with false.
    split; [discriminate | lia].
  - exact Hsteps.
  - rewrite Hl in Hp, Hf. rewrite Hins in Hi.
    split; [exact Hi|]. split; [exact Hp|]. split; [exact Hf|].
    intros Hnf.
    assert (Hlt : PC bf < Z.of_nat (length input)).
    { destruct (Z.lt_ge_cases (PC bf) (Z.of_nat (length input))) as [H|H]; [exact H|].
      apply Hf in H. congruence. }
    destruct (lookup_lt_is_Some_2 (Instructions bf) (Z.to_nat (PC bf))) as [t Ht].
    + rewrite Hi, length_fmap. lia.
    + exists t. rewrite <- (Z2Nat.id (PC bf)) by lia. apply index_lookup, Ht.
Qed.

Lemma closes_token depth t l :
  t <> LOOPL -> t <> LOOPR -> closes depth l -> closes depth (t :: l).
Proof.
  intros Hl Hr. destruct depth as [|depth]; cbn [closes].
  - apply balanced_token; assumption.
  - intros (a & b & -> & Ha & Hb). exists (t :: a), b.
    split; [reflexivity|]. split; [apply balanced_token; assumption | exact Hb].
Qed.

Lemma closes_loop depth l : closes (S depth) l -> closes depth (LOOPL :: l).
Proof.
  cbn [closes]. intros (a & b & -> & Ha & Hb).
  destruct depth as [|depth]; cbn [closes] in *.
  - apply balanced_loop; assumption.
  - destruct Hb as (a' & b' & -> & Ha' & Hb').
    exists (LOOPL :: a ++ LOOPR :: a'), b'. split.
    + cbn [app]. rewrite <- app_assoc. reflexivity.
    + split; [apply balanced_loop; assumption | exact Hb'].
Qed.

Lemma balanced_from_closes l :
  forall depth, balanced_from depth l = true -> closes depth l.
Proof.
  induction l as [|t l IH]; intros depth; cbn [balanced_from].
  - destruct depth; [intros _; apply balanced_nil | discriminate].
  - destruct (Z.eqb_spec t LOOPL) as [->|Hl].
    { intros H. apply closes_loop, IH, H. }
    destruct (Z.eqb_spec t LOOPR) as [->|Hr].
    { destruct depth as [|depth]; [discriminate|]. intros H.
      exists [], l. split; [reflexivity|]. split; [apply balanced_nil | apply IH, H]. }
    intros H. apply closes_token; auto.
Qed.

Lemma balancedb_sound l : balancedb l = true -> balanced l.
Proof. apply (balanced_from_closes l 0). Qed.

(** the invariant on ["+[-]"], whose tokens pass the check, after four steps:
    the cursor is back on the loop-open *)
Example cursor_invariant_plus_loop_minus :
  let io := {| stdin := []; stdout := [] |} in
  exists bf,
    steps 4 (CreateBrainfuckProgram (text "+[-]")) io = Ok (bf, io) /\
    0 <= PC bf <= 4 /\
    (Finished bf = true <-> 4 <= PC bf) /\
    (Finished bf = false -> exists t, index (Instructions bf) (PC bf) = Ok t).
Proof.
  intros io.
  pose (bf0 := CreateBrainfuckProgram (text "+[-]")).
  exists (mkBrainfuckProgram (Instructions bf0)
            (<[0%nat:=0]> (<[0%nat:=1]> (Tape bf0))) 0 1 false).
  split; [reflexivity|].
  eapply (cursor_invariant_of_balanced_text (text "+[-]") io 4).
  - discriminate.
  - apply balancedb_sound. reflexivity.
  - vm_compute. discriminate.
  - reflexivity.
Qed.

(** * More of the code *)

(** ** What the scans and a step leave alone *)

Lemma openLoop_for_frame fuel :
  forall bf balance bf',
    openLoop_for fuel bf balance = Ok bf' -> bf' = set_PC bf (PC bf').
Proof.
  induction fuel as [|fuel IH]; intros bf balance bf'; cbn [openLoop_for].
  - destruct (balance =? 0); [|discriminate].
    intros [= <-]. destruct bf; reflexivity.
  - destruct (balance =? 0); [intros [= <-]; destruct bf; reflexivity|].
    cbn [PC Instructions set_PC].
    case_index (Instructions bf) (int_incr (PC bf)) t Ht; [|discriminate].
    assert (Hrec : forall b,
      openLoop_for fuel (set_PC bf (int_incr (PC bf))) b = Ok bf' ->
      bf' = set_PC bf (PC bf')).
    { intros b H. apply IH in H. rewrite H. reflexivity. }
    destruct (t =? LOOPL); [apply Hrec|].
    destruct (t =? LOOPR); apply Hrec.
Qed.

Lemma closeLoop_for_frame fuel :
  forall bf balance bf',
    closeLoop_for fuel bf balance = Ok bf' -> bf' = set_PC bf (PC bf').
Proof.
  induction fuel as [|fuel IH]; intros bf balance bf'; cbn [closeLoop_for];
    [discriminate|].
  case_index (Instructions bf) (PC bf) t Ht; [|discriminate].
  assert (Hrec : forall b,
    (if b =? 0 then Ok (set_PC bf (int_decr (PC bf)))
     else closeLoop_for fuel (set_PC bf (int_decr (PC bf))) b) = Ok bf' ->
    bf' = set_PC bf (PC bf')).
  { intros b. destruct (b =? 0); [intros [= <-]; reflexivity|].
    intros H. apply IH in H. rewrite H. reflexivity. }
  destruct (t =? LOOPL); cbn [mbind result_bind]; [apply Hrec|].
  destruct (t =? LOOPR); cbn [mbind result_bind]; apply Hrec.
Qed.

Lemma store_length {A} (s : list A) i x s' :
  store s i x = Ok s' -> length s' = length s.
Proof.
  unfold store. destruct (in_range s i); [|discriminate].
  intros [= <-]. apply length_insert.
Qed.

Lemma streams_follow_refl io : streams_follow io io.
Proof.
  split; exists []; rewrite ?app_nil_r; cbn [length app]; auto.
Qed.

Lemma streams_follow_Printf_c io c : streams_follow io (Printf_c io c).
Proof.
  split; [exists [c] | exists []]; cbn [Printf_c stdout stdin length app]; auto.
Qed.

Lemma streams_follow_ReadRune io char err io' :
  ReadRune io = (char, err, io') -> streams_follow io io'.
Proof.
  unfold ReadRune. destruct (stdin io) as [|r rest] eqn:Hin; intros [= <- <- <-].
  - apply streams_follow_refl.
  - split; [exists [] | exists [r]]; cbn [stdout stdin length app];
      rewrite ?app_nil_r, ?Hin; auto.
Qed.

(** what [Evaluate_switch] keeps, whatever the token *)
Lemma Evaluate_switch_frame bf io bf' io' :
  Evaluate_switch bf io = Ok (bf', io') ->
  Instructions bf' = Instructions bf /\
  length (Tape bf') = length (Tape bf) /\
  Finished bf' = Finished bf /\
  streams_follow io io'.
Proof.
  pose proof (streams_follow_refl io) as Hrefl.
  unfold Evaluate_switch.
  case_index (Instructions bf) (PC bf) t Ht; [|discriminate].
  destruct (t =? RIGHT); [intros [= <- <-]; auto|].
  destruct (t =? LEFT); [intros [= <- <-]; auto|].
  destruct (t =? INC).
  { case_index (Tape bf) (DP bf) cell Hcell; [|discriminate].
    case_store (Tape bf) (DP bf) (byte_incr cell) tape Htape; [|discriminate].
    intros [= <- <-]. cbn [Instructions Tape Finished set_Tape].
    eauto using store_length. }
  destruct (t =? DEC).
  { case_index (Tape bf) (DP bf) cell Hcell; [|discriminate].
    case_store (Tape bf) (DP bf) (byte_decr cell) tape Htape; [|discriminate].
    intros [= <- <-]. cbn [Instructions Tape Finished set_Tape].
    eauto using store_length. }
  destruct (t =? PRINT).
  { case_index (Tape bf) (DP bf) cell Hcell; [|discriminate].
    intros [= <- <-]. auto using streams_follow_Printf_c. }
  destruct (t =? READ).
  { destruct (ReadRune io) as [[char err] io1] eqn:Hread.
    case_store (Tape bf) (DP bf) (byte_of char) tape Htape; [|discriminate].
    intros [= <- <-]. cbn [Instructions Tape Finished set_Tape].
    eauto 6 using store_length, streams_follow_ReadRune. }
  destruct (t =? LOOPL).
  { destruct (openLoop bf) as [bf1| |] eqn:Ho; cbn [mbind result_bind];
      [|discriminate|discriminate].
    intros [= <- <-]. unfold openLoop in Ho.
    destruct (index (Tape bf) (DP bf)) as [cell| |]; cbn [mbind result_bind] in Ho;
      [|discriminate|discriminate].
    destruct (cell =? 0); [|injection Ho as <-; auto].
    apply openLoop_for_frame in Ho. rewrite Ho. auto. }
  destruct (t =? LOOPR).
  { destruct (closeLoop bf) as [bf1| |] eqn:Hc; cbn [mbind result_bind];
      [|discriminate|discriminate].
    intros [= <- <-]. unfold closeLoop in Hc.
    apply closeLoop_for_frame in Hc. rewrite Hc. auto. }
  intros [= <- <-]; auto.
Qed.

Lemma Evaluate_end_frame bf :
  Instructions (Evaluate_end bf) = Instructions bf /\
  Tape (Evaluate_end bf) = Tape bf /\
  DP (Evaluate_end bf) = DP bf /\
  (Finished bf = true -> Finished (Evaluate_end bf) = true).
Proof.
  unfold Evaluate_end. destruct (_ <=? _); cbn; auto.
Qed.

(** what one step keeps, whatever the program: the instructions, the number
    of cells, a [Finished] that is set, what was printed *)
Lemma Evaluate_frame bf io bf' io' :
  Evaluate bf io = Ok (bf', io') ->
  Instructions bf' = Instructions bf /\
  length (Tape bf') = length (Tape bf) /\
  (Finished bf = true -> Finished bf' = true) /\
  streams_follow io io'.
Proof.
  unfold Evaluate.
  destruct (Evaluate_switch bf io) as [[bf1 io1]| |] eqn:Hsw; cbn [mbind result_bind];
    [|discriminate|discriminate].
  intros [= <- <-].
  destruct (Evaluate_switch_frame _ _ _ _ Hsw) as (Hi1 & Hl1 & Hf1 & Hio).
  destruct (Evaluate_end_frame bf1) as (Hi2 & Ht2 & _ & Hf2).
  rewrite Hi2, Ht2, Hi1, Hl1. repeat split; try exact (proj1 Hio); try exact (proj2 Hio).
  intros Hf. apply Hf2. rewrite Hf1. exact Hf.
Qed.



(** ** A forward scan that ends has found the partner *)

Lemma scanned_token depth t s :
  t <> LOOPL -> t <> LOOPR -> scanned (S depth) s -> scanned (S depth) (t :: s).
Proof.
  intros Hl Hr (a & rest & -> & Ha & Hrest). exists (t :: a), rest.
  split; [reflexivity|]. split; [apply balanced_token; assumption | exact Hrest].
Qed.

Lemma scanned_open depth s :
  scanned (S (S depth)) s -> scanned (S depth) (LOOPL :: s).
Proof.
  intros (a & rest & -> & Ha & a' & rest' & -> & Ha' & Hrest').
  exists (LOOPL :: a ++ LOOPR :: a'), rest'. split.
  - cbn [app]. rewrite <- app_assoc. reflexivity.
  - split; [apply balanced_loop; assumption | exact Hrest'].
Qed.

Lemma scanned_close depth s : scanned depth s -> scanned (S depth) (LOOPR :: s).
Proof.
  intros H. exists [], s. split; [reflexivity|]. split; [apply balanced_nil | exact H].
Qed.

Lemma index_app_head {A} (pre rest : list A) i x :
  i = Z.of_nat (length pre) -> index (pre ++ rest) i = Ok x ->
  exists rest', rest = x :: rest'.
Proof.
  intros -> H. apply index_Ok_inv in H as [_ H]. rewrite Nat2Z.id in H.
  rewrite lookup_app_r, Nat.sub_diag in H by lia.
  destruct rest as [|y rest']; [discriminate|]. injection H as ->. eauto.
Qed.

(** When the loop of [openLoop] ends with a program, the tokens that it has
    read close as many loops as the counter said, and nothing else of the
    program is changed. *)
Lemma openLoop_for_Ok_scanned fuel :
  forall pre rest ins tape dp pc fin balance bf',
    ins = pre ++ rest ->
    pc = Z.of_nat (length pre) - 1 ->
    0 <= balance -> balance + Z.of_nat (length rest) <= max_int ->
    Z.of_nat (length ins) <= max_int ->
    openLoop_for fuel (mkBrainfuckProgram ins tape dp pc fin) balance = Ok bf' ->
    exists s post,
      rest = s ++ post /\
      scanned (Z.to_nat balance) s /\
      bf' = mkBrainfuckProgram ins tape dp (pc + Z.of_nat (length s)) fin.
Proof.
  assert (Hstop : forall rest ins tape dp pc fin,
    exists s post : list Token,
      rest = s ++ post /\ scanned (Z.to_nat 0) s /\
      mkBrainfuckProgram ins tape dp pc fin
      = mkBrainfuckProgram ins tape dp (pc + Z.of_nat (length s)) fin).
  { intros. exists [], rest. split; [reflexivity|]. split; [reflexivity|].
    cbn [length]. do 2 f_equal. lia. }
  induction fuel as [|fuel IH];
    intros pre rest ins tape dp pc fin balance bf' Hins Hpc Hb Hmax Hlen;
    cbn [openLoop_for].
  - destruct (Z.eqb_spec balance 0) as [->|Hnz]; [|discriminate].
    intros [= <-]. apply Hstop.
  - destruct (Z.eqb_spec balance 0) as [->|Hnz]; [intros [= <-]; apply Hstop|].
    cbn [PC Instructions set_PC].
    assert (Hlen' := Hlen). rewrite Hins, length_app in Hlen'.
    rewrite int_incr_small by (unfold max_int in *; lia).
    case_index ins (pc + 1) t Ht; [|discriminate].
    rewrite Hins in Ht.
    destruct (index_app_head pre rest (pc + 1) t ltac:(lia) Ht) as [rest' ->].
    cbn [length] in Hmax.
    assert (Hrec : forall b,
      0 <= b -> b + Z.of_nat (length rest') <= max_int ->
      openLoop_for fuel (mkBrainfuckProgram ins tape dp (pc + 1) fin) b = Ok bf' ->
      exists s' post,
        rest' = s' ++ post /\ scanned (Z.to_nat b) s' /\
        bf' = mkBrainfuckProgram ins tape dp (pc + Z.of_nat (length (t :: s'))) fin).
    { intros b Hb0 Hbmax H.
      destruct (IH (pre ++ [t]) rest' ins tape dp (pc + 1) fin b bf') as (s' & post & Hs);
        try assumption.
      - rewrite Hins, <- app_assoc. reflexivity.
      - rewrite length_app. cbn [length]. lia.
      - exists s', post. destruct Hs as (-> & Hsc & ->).
        split; [reflexivity|]. split; [exact Hsc|].
        cbn [length]. f_equal. lia. }
    destruct (Z.to_nat balance) as [|depth] eqn:Hdepth; [lia|].
    destruct (Z.eqb_spec t LOOPL) as [->|Hl].
    { rewrite int_incr_small by (unfold max_int in *; lia). intros H.
      apply Hrec in H as (s' & post & -> & Hsc & ->); try lia.
      exists (LOOPL :: s'), post. split; [reflexivity|]. split; [|reflexivity].
      apply scanned_open. replace (S (S depth)) with (Z.to_nat (balance + 1)) by lia.
      exact Hsc. }
    destruct (Z.eqb_spec t LOOPR) as [->|Hr].
    { rewrite int_decr_small by (unfold max_int in *; lia). intros H.
      apply Hrec in H as (s' & post & -> & Hsc & ->); try lia.
      exists (LOOPR :: s'), post. split; [reflexivity|]. split; [|reflexivity].
      apply scanned_close. replace depth with (Z.to_nat (balance - 1)) by lia.
      exact Hsc. }
    intros H. apply Hrec in H as (s' & post & -> & Hsc & ->); try lia.
    exists (t :: s'), post. split; [reflexivity|]. split; [|reflexivity].
    apply scanned_token; [assumption | assumption |].
    rewrite <- Hdepth. exact Hsc.
Qed.

(** the only panic of the loop of [openLoop]: the read one place after the
    last instruction *)
Lemma openLoop_for_Panic fuel :
  forall ins tape dp pc fin balance e,
    -1 <= pc < Z.of_nat (length ins) ->
    Z.of_nat (length ins) <= max_int ->
    openLoop_for fuel (mkBrainfuckProgram ins tape dp pc fin) balance = Panic e ->
    e = IndexOutOfRange (Z.of_nat (length ins)) (Z.of_nat (length ins)).
Proof.
  induction fuel as [|fuel IH]; intros ins tape dp pc fin balance e Hpc Hlen;
    cbn [openLoop_for].
  - destruct (balance =? 0); discriminate.
  - destruct (balance =? 0); [discriminate|].
    cbn [PC Instructions set_PC].
    rewrite int_incr_small by (unfold max_int in *; lia).
    destruct (Z.eq_dec (pc + 1) (Z.of_nat (length ins))) as [Heq|Hne].
    + rewrite index_outside by lia. cbn [mbind result_bind].
      intros [= <-]. rewrite Heq. reflexivity.
    + case_index ins (pc + 1) t Ht.
      * assert (Hrec : forall b,
          openLoop_for fuel (mkBrainfuckProgram ins tape dp (pc + 1) fin) b = Panic e ->
          e = IndexOutOfRange (Z.of_nat (length ins)) (Z.of_nat (length ins))).
        { intros b. apply IH; lia. }
        destruct (t =? LOOPL); [apply Hrec|].
        destruct (t =? LOOPR); apply Hrec.
      * exfalso. unfold index in Ht.
        assert (Hr : in_range ins (pc + 1) = true) by (apply in_range_spec; lia).
        rewrite Hr in Ht.
        destruct (lookup_lt_is_Some_2 ins (Z.to_nat (pc + 1))) as [x Hx]; [lia|].
        rewrite Hx in Ht. discriminate.
Qed.

(** X2. A step on a loop-open with the current cell 0, whatever the
    instructions: if it gives a program, the loop-open has its loop-close,
    and the cursor is one past it; if the loop-open has no loop-close, the
    step panics on the read one place after the last instruction. *)
Theorem loop_open_skip_needs_partner bf io :
  Z.of_nat (length (Instructions bf)) <= max_int ->
  index (Instructions bf) (PC bf) = Ok LOOPL ->
  index (Tape bf) (DP bf) = Ok 0 ->
  (forall bf' io', Evaluate bf io = Ok (bf', io') ->
     exists j, matching (Instructions bf) (Z.to_nat (PC bf)) j /\
               PC bf' = Z.of_nat j + 1 /\ io' = io) /\
  ((forall j, ~ matching (Instructions bf) (Z.to_nat (PC bf)) j) ->
     Evaluate bf io
     = Panic (IndexOutOfRange (Z.of_nat (length (Instructions bf)))
                              (Z.of_nat (length (Instructions bf))))).
Proof.
  destruct bf as [ins tape dp pc fin]. cbn [Instructions PC Tape DP].
  intros Hlen Ht Hcell.
  pose proof (index_Ok_inv _ _ _ Ht) as [Hpc Hlook].
  set (n := Z.to_nat pc) in *.
  assert (Hsplit : ins = (take n ins ++ [LOOPL]) ++ drop (S n) ins).
  { rewrite <- app_assoc. symmetry. apply take_drop_middle, Hlook. }
  assert (Hpre : length (take n ins ++ [LOOPL]) = S n).
  { rewrite length_app, length_take. cbn [length]. lia. }
  assert (Hok : forall bf1,
    openLoop_for (S (length ins)) (mkBrainfuckProgram ins tape dp pc fin) 1 = Ok bf1 ->
    exists j, matching ins n j /\
              bf1 = mkBrainfuckProgram ins tape dp (Z.of_nat j) fin).
  { intros bf1 H.
    apply (openLoop_for_Ok_scanned _ (take n ins ++ [LOOPL]) (drop (S n) ins)) in H
      as (s & post & Hrest & Hsc & ->); try assumption; try lia.
    2:{ rewrite length_drop. lia. }
    change (Z.to_nat 1) with 1%nat in Hsc.
    destruct Hsc as (a & rest0 & -> & Ha & Hr0).
    cbn [scanned] in Hr0. subst rest0.
    assert (Htake : length (take n ins) = n) by (rewrite length_take; lia).
    exists (n + 1 + length a)%nat. split.
    - exists (take n ins), a, post. rewrite Htake. repeat split; [|exact Ha].
      etransitivity; [exact Hsplit|]. rewrite Hrest, <- !app_assoc. reflexivity.
    - f_equal. rewrite length_app. cbn [length]. unfold n. lia. }
  assert (Heval : Evaluate (mkBrainfuckProgram ins tape dp pc fin) io
    = (bf1 ← openLoop_for (S (length ins)) (mkBrainfuckProgram ins tape dp pc fin) 1;
       Ok (Evaluate_end bf1, io))).
  { unfold Evaluate. rewrite Evaluate_switch_LOOPL by exact Ht.
    unfold openLoop. cbn [Tape DP Instructions]. rewrite Hcell.
    cbn [mbind result_bind]. change (0 =? 0) with true. cbn iota.
    destruct (openLoop_for _ _ _); reflexivity. }
  rewrite Heval. split.
  - intros bf' io'.
    destruct (openLoop_for _ _ _) as [bf1| |] eqn:Hfor; cbn [mbind result_bind];
      [|discriminate|discriminate].
    intros [= <- <-]. destruct (Hok bf1 eq_refl) as (j & Hm & ->).
    exists j. split; [exact Hm|]. split; [|reflexivity].
    pose proof (matching_lt _ _ _ Hm) as Hlt.
    unfold Evaluate_end. cbn [PC Instructions set_PC].
    rewrite int_incr_small by (unfold max_int in *; lia).
    destruct (_ <=? _); reflexivity.
  - intros Hno.
    destruct (openLoop_for _ _ _) as [bf1|e|] eqn:Hfor; cbn [mbind result_bind].
    + destruct (Hok bf1 eq_refl) as (j & Hm & _). destruct (Hno j Hm).
    + apply openLoop_for_Panic in Hfor; [|lia|assumption]. rewrite Hfor. reflexivity.
    + exfalso. revert Hfor. apply openLoop_for_enough; unfold max_int in *; lia.
Qed.

(** the text ["[+"]: the loop-open has no loop-close *)
Lemma loop_open_skip_needs_partner_witness :
  Evaluate (CreateBrainfuckProgram (text "[+")) {| stdin := []; stdout := [] |}
  = Panic (IndexOutOfRange 2 2).
Proof.
  refine (proj2 (loop_open_skip_needs_partner (CreateBrainfuckProgram (text "[+"))
                   {| stdin := []; stdout := [] |} _ _ _) _).
  - vm_compute. discriminate.
  - reflexivity.
  - reflexivity.
  - intros j Hm. apply matching_lookup in Hm as [_ Hj].
    destruct j as [|[|j]]; discriminate Hj.
Defined.

(** ** A backward scan that ends has found the partner *)

Lemma balanced_app a b : balanced a -> balanced b -> balanced (a ++ b).
Proof.
  intros Ha Hb. induction Ha as [|t l Hl Hr Hbal IH|body l Hbody _ Hl IH]; cbn [app].
  - exact Hb.
  - apply balanced_token; assumption.
  - rewrite <- app_assoc. cbn [app]. apply balanced_loop; assumption.
Qed.

Lemma scanned_back_token depth t s :
  t <> LOOPL -> t <> LOOPR ->
  scanned_back (S depth) s -> scanned_back (S depth) (s ++ [t]).
Proof.
  intros Hl Hr (rest & a & -> & Ha & Hrest). exists rest, (a ++ [t]).
  split; [rewrite <- app_assoc; reflexivity|]. split; [|exact Hrest].
  apply balanced_app; [exact Ha|].
  apply balanced_token; [assumption | assumption | apply balanced_nil].
Qed.

Lemma scanned_back_close depth s :
  scanned_back (S (S depth)) s -> scanned_back (S depth) (s ++ [LOOPR]).
Proof.
  intros (rest & a & -> & Ha & rest' & a' & -> & Ha' & Hrest').
  exists rest', (a' ++ LOOPL :: a ++ [LOOPR]). split.
  - rewrite <- !app_assoc. reflexivity.
  - split; [|exact Hrest'].
    apply balanced_app; [exact Ha'|].
    apply balanced_loop; [exact Ha | apply balanced_nil].
Qed.

Lemma scanned_back_open depth s :
  scanned_back depth s -> scanned_back (S depth) (s ++ [LOOPL]).
Proof.
  intros H. exists s, []. split; [reflexivity|]. split; [apply balanced_nil | exact H].
Qed.

Lemma index_app_last {A} (rest post : list A) i x :
  i = Z.of_nat (length rest) - 1 -> index (rest ++ post) i = Ok x ->
  exists rest', rest = rest' ++ [x].
Proof.
  intros -> H. apply index_Ok_inv in H as [Hr H].
  destruct rest as [|y rest' _] using rev_ind; [cbn [length] in Hr; lia|].
  exists rest'. rewrite length_app in H. cbn [length] in H.
  replace (Z.to_nat (Z.of_nat (length rest' + 1) - 1)) with (length rest') in H by lia.
  rewrite <- app_assoc in H. cbn [app] in H.
  rewrite list_lookup_middle in H by reflexivity. injection H as ->. reflexivity.
Qed.

(** When the loop of [closeLoop], entered with the counter below zero, ends
    with a program, the tokens that it has read open as many loops as the
    counter said, and nothing else of the program is changed. *)
Lemma closeLoop_for_Ok_scanned_back fuel :
  forall rest post ins tape dp pc fin balance bf',
    ins = rest ++ post ->
    pc = Z.of_nat (length rest) - 1 ->
    balance < 0 -> - max_int <= balance - Z.of_nat (length rest) ->
    Z.of_nat (length ins) <= max_int ->
    closeLoop_for fuel (mkBrainfuckProgram ins tape dp pc fin) balance = Ok bf' ->
    exists pre s,
      rest = pre ++ s /\
      scanned_back (Z.to_nat (- balance)) s /\
      bf' = mkBrainfuckProgram ins tape dp (pc - Z.of_nat (length s)) fin.
Proof.
  induction fuel as [|fuel IH];
    intros rest post ins tape dp pc fin balance bf' Hins Hpc Hb Hmin Hlen;
    cbn [closeLoop_for]; [discriminate|].
  cbn [PC Instructions set_PC].
  case_index ins pc t Ht; [|discriminate].
  pose proof (index_Ok_inv _ _ _ Ht) as [Hr _].
  rewrite Hins in Ht.
  destruct (index_app_last rest post pc t Hpc Ht) as [rest' ->].
  rewrite length_app in Hpc, Hmin. cbn [length] in Hpc, Hmin.
  rewrite int_decr_small by (unfold max_int in *; lia).
  assert (Hrec : forall b,
    b < 0 -> - max_int <= b - Z.of_nat (length rest') ->
    closeLoop_for fuel (mkBrainfuckProgram ins tape dp (pc - 1) fin) b = Ok bf' ->
    exists pre s',
      rest' = pre ++ s' /\ scanned_back (Z.to_nat (- b)) s' /\
      bf' = mkBrainfuckProgram ins tape dp (pc - Z.of_nat (length (s' ++ [t]))) fin).
  { intros b Hb0 Hbmin H.
    destruct (IH rest' ([t] ++ post) ins tape dp (pc - 1) fin b bf') as (pre & s' & Hs);
      try assumption.
    - rewrite Hins, <- app_assoc. reflexivity.
    - lia.
    - exists pre, s'. destruct Hs as (-> & Hsc & ->).
      split; [reflexivity|]. split; [exact Hsc|].
      rewrite length_app. cbn [length]. f_equal. lia. }
  destruct (Z.to_nat (- balance)) as [|depth] eqn:Hdepth; [lia|].
  destruct (Z.eqb_spec t LOOPL) as [->|Hl]; cbn [mbind result_bind].
  { rewrite int_incr_small by (unfold max_int in *; lia).
    destruct (Z.eqb_spec (balance + 1) 0) as [Hz|Hnz].
    - intros [= <-]. exists rest', [LOOPL]. split; [reflexivity|]. split.
      + replace depth with 0%nat by lia.
        exists [], []. split; [reflexivity|]. split; [apply balanced_nil | reflexivity].
      + reflexivity.
    - intros H. apply Hrec in H as (pre & s' & -> & Hsc & ->); try lia.
      exists pre, (s' ++ [LOOPL]). split; [rewrite app_assoc; reflexivity|].
      split; [|reflexivity].
      apply scanned_back_open. replace depth with (Z.to_nat (- (balance + 1))) by lia.
      exact Hsc. }
  destruct (Z.eqb_spec t LOOPR) as [->|Hr']; cbn [mbind result_bind].
  { rewrite int_decr_small by (unfold max_int in *; lia).
    destruct (Z.eqb_spec (balance - 1) 0) as [Hz|Hnz]; [lia|].
    intros H. apply Hrec in H as (pre & s' & -> & Hsc & ->); try lia.
    exists pre, (s' ++ [LOOPR]). split; [rewrite app_assoc; reflexivity|].
    split; [|reflexivity].
    apply scanned_back_close.
    replace (S (S depth)) with (Z.to_nat (- (balance - 1))) by lia. exact Hsc. }
  destruct (Z.eqb_spec balance 0) as [Hz|Hnz]; [lia|].
  intros H. apply Hrec in H as (pre & s' & -> & Hsc & ->); try lia.
  exists pre, (s' ++ [t]). split; [rewrite app_assoc; reflexivity|].
  split; [|reflexivity].
  apply scanned_back_token; [assumption | assumption |].
  rewrite <- Hdepth. exact Hsc.
Qed.

(** the only panic of the loop of [closeLoop]: the read one place before the
    first instruction *)
Lemma closeLoop_for_Panic fuel :
  forall ins tape dp pc fin balance e,
    -1 <= pc < Z.of_nat (length ins) ->
    Z.of_nat (length ins) <= max_int ->
    closeLoop_for fuel (mkBrainfuckProgram ins tape dp pc fin) balance = Panic e ->
    e = IndexOutOfRange (-1) (Z.of_nat (length ins)).
Proof.
  induction fuel as [|fuel IH]; intros ins tape dp pc fin balance e Hpc Hlen;
    cbn [closeLoop_for]; [discriminate|].
  cbn [PC Instructions set_PC].
  destruct (Z.eq_dec pc (-1)) as [->|Hne].
  - rewrite index_outside by lia. cbn [mbind result_bind]. intros [= <-]. reflexivity.
  - case_index ins pc t Ht.
    + rewrite int_decr_small by (unfold max_int in *; lia).
      assert (Hrec : forall b,
        (if b =? 0 then Ok (mkBrainfuckProgram ins tape dp (pc - 1) fin)
         else closeLoop_for fuel (mkBrainfuckProgram ins tape dp (pc - 1) fin) b)
        = Panic e ->
        e = IndexOutOfRange (-1) (Z.of_nat (length ins))).
      { intros b. destruct (b =? 0); [discriminate|]. apply IH; lia. }
      destruct (t =? LOOPL); cbn [mbind result_bind]; [apply Hrec|].
      destruct (t =? LOOPR); cbn [mbind result_bind]; apply Hrec.
    + exfalso. unfold index in Ht.
      assert (Hr : in_range ins pc = true) by (apply in_range_spec; lia).
      rewrite Hr in Ht.
      destruct (lookup_lt_is_Some_2 ins (Z.to_nat pc)) as [x Hx]; [lia|].
      rewrite Hx in Ht. discriminate.
Qed.

(** X3. A step on a loop-close, whatever the instructions and the tape: if
    it gives a program, the loop-close has its loop-open, and the cursor is
    on it; if the loop-close has no loop-open, the step panics on the read
    one place before the first instruction. *)
Theorem loop_close_jump_needs_partner bf io :
  Z.of_nat (length (Instructions bf)) <= max_int ->
  index (Instructions bf) (PC bf) = Ok LOOPR ->
  (forall bf' io', Evaluate bf io = Ok (bf', io') ->
     exists i, matching (Instructions bf) i (Z.to_nat (PC bf)) /\
               PC bf' = Z.of_nat i /\ io' = io) /\
  ((forall i, ~ matching (Instructions bf) i (Z.to_nat (PC bf))) ->
     Evaluate bf io
     = Panic (IndexOutOfRange (-1) (Z.of_nat (length (Instructions bf))))).
Proof.
  destruct bf as [ins tape dp pc fin]. cbn [Instructions PC Tape DP].
  intros Hlen Ht.
  pose proof (index_Ok_inv _ _ _ Ht) as [Hpc Hlook].
  set (n := Z.to_nat pc) in *.
  assert (Hsplit : ins = take n ins ++ LOOPR :: drop (S n) ins).
  { symmetry. apply take_drop_middle, Hlook. }
  assert (Htake : length (take n ins) = n) by (rewrite length_take; unfold n; lia).
  (* the first iteration reads the loop-close itself *)
  assert (Hfirst :
    closeLoop_for (S (length ins)) (mkBrainfuckProgram ins tape dp pc fin) 0
    = closeLoop_for (length ins) (mkBrainfuckProgram ins tape dp (pc - 1) fin) (-1)).
  { rewrite (closeLoop_for_step _ _ _ _ _ _ _ LOOPR);
      [reflexivity | unfold max_int in *; lia | exact Ht]. }
  assert (Hok : forall bf1,
    closeLoop_for (length ins) (mkBrainfuckProgram ins tape dp (pc - 1) fin) (-1)
    = Ok bf1 ->
    exists i, matching ins i n /\
              bf1 = mkBrainfuckProgram ins tape dp (Z.of_nat i - 1) fin).
  { intros bf1 H.
    apply (closeLoop_for_Ok_scanned_back _ (take n ins) (LOOPR :: drop (S n) ins)) in H
      as (pre & s & Hrest & Hsc & ->); try assumption; try (unfold n in *; lia).
    change (Z.to_nat (- -1)) with 1%nat in Hsc.
    destruct Hsc as (rest0 & a & -> & Ha & Hr0).
    cbn [scanned_back] in Hr0. subst rest0. cbn [app] in Hrest.
    assert (Hn : n = (length pre + 1 + length a)%nat).
    { rewrite <- Htake, Hrest, length_app. cbn [length]. lia. }
    exists (length pre). split.
    - exists pre, a, (drop (S n) ins). repeat split; [|exact Ha|exact Hn].
      etransitivity; [exact Hsplit|]. rewrite Hrest, <- app_assoc. reflexivity.
    - f_equal. cbn [length app]. unfold n in Hn. lia. }
  assert (Heval : Evaluate (mkBrainfuckProgram ins tape dp pc fin) io
    = (bf1 ← closeLoop_for (length ins)
               (mkBrainfuckProgram ins tape dp (pc - 1) fin) (-1);
       Ok (Evaluate_end bf1, io))).
  { unfold Evaluate. rewrite Evaluate_switch_LOOPR by exact Ht.
    unfold closeLoop. cbn [Instructions]. rewrite Hfirst. clear Hfirst Hok.
    destruct (closeLoop_for _ _ _); reflexivity. }
  rewrite Heval. clear Heval Hfirst. split.
  - intros bf' io'.
    destruct (closeLoop_for _ _ _) as [bf1| |] eqn:Hfor; cbn [mbind result_bind];
      [|discriminate|discriminate].
    intros [= <- <-]. destruct (Hok bf1 eq_refl) as (i & Hm & ->).
    exists i. split; [exact Hm|]. split; [|reflexivity].
    pose proof (matching_lt _ _ _ Hm) as Hlt.
    rewrite Evaluate_end_inside by (unfold n, max_int in *; lia).
    cbn [PC]. lia.
  - intros Hno.
    destruct (closeLoop_for _ _ _) as [bf1|e|] eqn:Hfor; cbn [mbind result_bind].
    + destruct (Hok bf1 eq_refl) as (i & Hm & _). destruct (Hno i Hm).
    + apply closeLoop_for_Panic in Hfor; [|lia|assumption]. rewrite Hfor. reflexivity.
    + exfalso. revert Hfor.
      destruct (Z.eq_dec pc 0) as [->|Hnz].
      * destruct (length ins) as [|k] eqn:Hk; [cbn [length] in Hpc; lia|].
        cbn [closeLoop_for PC Instructions]. rewrite index_outside by lia.
        discriminate.
      * apply closeLoop_for_enough; unfold max_int in *; lia.
Qed.

(** the text ["+]"]: the loop-close has no loop-open *)
Lemma loop_close_jump_needs_partner_witness :
  let bf := set_PC (CreateBrainfuckProgram (text "+]")) 1 in
  Evaluate bf {| stdin := []; stdout := [] |} = Panic (IndexOutOfRange (-1) 2).
Proof.
  intros bf.
  refine (proj2 (loop_close_jump_needs_partner bf
                   {| stdin := []; stdout := [] |} _ _) _).
  - vm_compute. discriminate.
  - reflexivity.
  - intros i Hm. pose proof (matching_lt _ _ _ Hm) as Hlt.
    apply matching_lookup in Hm as [Hi _].
    change (Z.to_nat (PC bf)) with 1%nat in Hlt.
    destruct i as [|i]; [discriminate Hi | lia].
Defined.

(** ** Well-bracketed programs only panic on the tape *)

Lemma index_Panic_inv {A} (s : list A) i e :
  index s i = Panic e ->
  e = IndexOutOfRange i (Z.of_nat (length s)) /\ ~ 0 <= i < Z.of_nat (length s).
Proof.
  unfold index. destruct (in_range s i) eqn:Hr.
  - apply in_range_spec in Hr.
    destruct (lookup_lt_is_Some_2 s (Z.to_nat i)) as [x Hx]; [lia|].
    rewrite Hx. discriminate.
  - intros [= <-]. split; [reflexivity|]. rewrite <- in_range_spec, Hr. discriminate.
Qed.

Lemma store_Panic_inv {A} (s : list A) i x e :
  store s i x = Panic e ->
  e = IndexOutOfRange i (Z.of_nat (length s)) /\ ~ 0 <= i < Z.of_nat (length s).
Proof.
  unfold store. destruct (in_range s i) eqn:Hr; [discriminate|].
  intros [= <-]. split; [reflexivity|]. rewrite <- in_range_spec, Hr. discriminate.
Qed.

(** a panic of the [switch] on a token that is no loop-close is a panic of
    the access to the current cell, unless it comes from the scan of
    [openLoop] *)
Lemma Evaluate_switch_other_Panic bf io t e :
  index (Instructions bf) (PC bf) = Ok t -> t <> LOOPL -> t <> LOOPR ->
  Evaluate_switch bf io = Panic e ->
  e = IndexOutOfRange (DP bf) (Z.of_nat (length (Tape bf))) /\
  ~ 0 <= DP bf < Z.of_nat (length (Tape bf)).
Proof.
  intros Ht Hl Hr. unfold Evaluate_switch. rewrite Ht. cbn [mbind result_bind].
  destruct (t =? RIGHT); [discriminate|].
  destruct (t =? LEFT); [discriminate|].
  destruct (t =? INC).
  { case_index (Tape bf) (DP bf) cell Hcell;
      [|intros [= <-]; eapply index_Panic_inv, Hcell].
    case_store (Tape bf) (DP bf) (byte_incr cell) tape Htape; [discriminate|].
    intros [= <-]. eapply store_Panic_inv, Htape. }
  destruct (t =? DEC).
  { case_index (Tape bf) (DP bf) cell Hcell;
      [|intros [= <-]; eapply index_Panic_inv, Hcell].
    case_store (Tape bf) (DP bf) (byte_decr cell) tape Htape; [discriminate|].
    intros [= <-]. eapply store_Panic_inv, Htape. }
  destruct (t =? PRINT).
  { case_index (Tape bf) (DP bf) cell Hcell;
      [discriminate | intros [= <-]; eapply index_Panic_inv, Hcell]. }
  destruct (t =? READ).
  { destruct (ReadRune io) as [[char err] io1].
    case_store (Tape bf) (DP bf) (byte_of char) tape Htape; [discriminate|].
    intros [= <-]. eapply store_Panic_inv, Htape. }
  destruct (Z.eqb_spec t LOOPL); [contradiction|].
  destruct (Z.eqb_spec t LOOPR); [contradiction|].
  discriminate.
Qed.

(** a panic of a step from a cursor inside well-bracketed instructions is a
    panic of the access to the current cell *)
Lemma Evaluate_balanced_Panic bf io e :
  balanced (Instructions bf) ->
  Z.of_nat (length (Instructions bf)) <= max_int ->
  0 <= PC bf < Z.of_nat (length (Instructions bf)) ->
  Evaluate bf io = Panic e ->
  e = IndexOutOfRange (DP bf) (Z.of_nat (length (Tape bf))) /\
  ~ 0 <= DP bf < Z.of_nat (length (Tape bf)).
Proof.
  intros Hbal Hlen Hpc.
  destruct (lookup_lt_is_Some_2 (Instructions bf) (Z.to_nat (PC bf))) as [t Hlook];
    [lia|].
  assert (Ht : index (Instructions bf) (PC bf) = Ok t).
  { rewrite <- (Z2Nat.id (PC bf)) by lia. apply index_lookup, Hlook. }
  destruct bf as [ins tape dp pc fin]. cbn [Instructions PC Tape DP] in *.
  unfold Evaluate.
  destruct (Z.eq_dec t LOOPL) as [->|Hnl]; [|destruct (Z.eq_dec t LOOPR) as [->|Hnr]].
  - destruct (balanced_open_has_close ins Hbal _ Hlook) as [j Hm].
    rewrite Evaluate_switch_LOOPL by exact Ht.
    unfold openLoop. cbn [Tape DP Instructions].
    case_index tape dp cell Hcell; [|intros [= <-]; eapply index_Panic_inv, Hcell].
    destruct (cell =? 0); [|discriminate].
    rewrite <- (Z2Nat.id pc) by lia.
    rewrite (openLoop_for_matching ins tape dp fin _ j Hlen Hm). discriminate.
  - destruct (balanced_close_has_open ins Hbal _ Hlook) as [i Hm].
    rewrite Evaluate_switch_LOOPR by exact Ht.
    unfold closeLoop. cbn [Instructions].
    rewrite <- (Z2Nat.id pc) by lia.
    rewrite (closeLoop_for_matching ins tape dp fin i _ Hlen Hm). discriminate.
  - destruct (Evaluate_switch (mkBrainfuckProgram ins tape dp pc fin) io)
      as [[bf1 io1]|e1|] eqn:Hsw; cbn [mbind result_bind]; [discriminate| |discriminate].
    intros [= <-].
    apply (Evaluate_switch_other_Panic (mkBrainfuckProgram ins tape dp pc fin)
             io t e1 Ht Hnl Hnr Hsw).
Qed.

Lemma run_Panic_steps fuel :
  forall bf io e, run fuel bf io = Panic e -> steps fuel bf io = Panic e.
Proof.
  induction fuel as [|fuel IH]; intros bf io e; cbn [run steps].
  - destruct (Finished bf); discriminate.
  - destruct (Finished bf); [discriminate|].
    destruct (Evaluate bf io) as [[bf' io']| |]; cbn [mbind result_bind];
      [apply IH | auto | discriminate].
Qed.




(** ** Programs that do not move the data cursor *)

Lemma Evaluate_switch_DP bf io t bf' io' :
  index (Instructions bf) (PC bf) = Ok t -> t <> RIGHT -> t <> LEFT ->
  Evaluate_switch bf io = Ok (bf', io') ->
  DP bf' = DP bf.
Proof.
  intros Ht Hr Hl. unfold Evaluate_switch. rewrite Ht. cbn [mbind result_bind].
  destruct (Z.eqb_spec t RIGHT); [contradiction|].
  destruct (Z.eqb_spec t LEFT); [contradiction|].
  destruct (t =? INC).
  { case_index (Tape bf) (DP bf) cell Hcell; [|discriminate].
    case_store (Tape bf) (DP bf) (byte_incr cell) tape Htape; [|discriminate].
    intros [= <- <-]. reflexivity. }
  destruct (t =? DEC).
  { case_index (Tape bf) (DP bf) cell Hcell; [|discriminate].
    case_store (Tape bf) (DP bf) (byte_decr cell) tape Htape; [|discriminate].
    intros [= <- <-]. reflexivity. }
  destruct (t =? PRINT).
  { case_index (Tape bf) (DP bf) cell Hcell; [|discriminate].
    intros [= <- <-]. reflexivity. }
  destruct (t =? READ).
  { destruct (ReadRune io) as [[char err] io1].
    case_store (Tape bf) (DP bf) (byte_of char) tape Htape; [|discriminate].
    intros [= <- <-]. reflexivity. }
  destruct (t =? LOOPL).
  { destruct (openLoop bf) as [bf1| |] eqn:Ho; cbn [mbind result_bind];
      [|discriminate|discriminate].
    intros [= <- <-]. unfold openLoop in Ho.
    destruct (index (Tape bf) (DP bf)) as [cell| |]; cbn [mbind result_bind] in Ho;
      [|discriminate|discriminate].
    destruct (cell =? 0); [|injection Ho as <-; reflexivity].
    apply openLoop_for_frame in Ho. rewrite Ho. reflexivity. }
  destruct (t =? LOOPR).
  { destruct (closeLoop bf) as [bf1| |] eqn:Hc; cbn [mbind result_bind];
      [|discriminate|discriminate].
    intros [= <- <-]. unfold closeLoop in Hc.
    apply closeLoop_for_frame in Hc. rewrite Hc. reflexivity. }
  intros [= <- <-]. reflexivity.
Qed.

Lemma token_of_char_no_move c :
  c <> chr "<" -> c <> chr ">" ->
  token_of_char c <> RIGHT /\ token_of_char c <> LEFT.
Proof.
  intros Hl Hr. unfold token_of_char.
  destruct (Z.eqb_spec c (chr ">")); [contradiction|].
  destruct (Z.eqb_spec c (chr "<")); [contradiction|].
  repeat (destruct (c =? _); [split; discriminate|]). split; discriminate.
Qed.

Lemma steps_no_moves n :
  forall bf io,
    balanced (Instructions bf) ->
    Forall (fun t => t <> RIGHT /\ t <> LEFT) (Instructions bf) ->
    Z.of_nat (length (Instructions bf)) <= max_int ->
    0 <= PC bf <= Z.of_nat (length (Instructions bf)) ->
    (Finished bf = true <-> Z.of_nat (length (Instructions bf)) <= PC bf) ->
    0 <= DP bf < Z.of_nat (length (Tape bf)) ->
    match steps n bf io with
    | Ok (bf', _) => DP bf' = DP bf
    | Panic _ => False
    | Timeout => True
    end.
Proof.
  induction n as [|n IH]; intros bf io Hbal Hnm Hlen Hpc Hfin Hdp; cbn [steps];
    [reflexivity|].
  destruct (Finished bf) eqn:Hf; [reflexivity|].
  assert (Hin : 0 <= PC bf < Z.of_nat (length (Instructions bf))).
  { split; [lia|]. destruct (Z.lt_ge_cases (PC bf) (Z.of_nat (length (Instructions bf))))
      as [Hlt|Hge]; [exact Hlt|]. apply Hfin in Hge. discriminate. }
  destruct (Evaluate bf io) as [[bf1 io1]|e1|] eqn:He; cbn [mbind result_bind];
    [| |exact I].
  - destruct (Evaluate_keeps_cursor_invariant _ _ _ _ Hbal Hlen Hf Hin He)
      as (Hi1 & Hp1 & Hf1).
    destruct (Evaluate_frame _ _ _ _ He) as (_ & Hl1 & _).
    assert (Hdp1 : DP bf1 = DP bf).
    { destruct (lookup_lt_is_Some_2 (Instructions bf) (Z.to_nat (PC bf)))
        as [t Hlook]; [lia|].
      assert (Ht : index (Instructions bf) (PC bf) = Ok t).
      { rewrite <- (Z2Nat.id (PC bf)) by lia. apply index_lookup, Hlook. }
      rewrite Forall_lookup in Hnm. destruct (Hnm _ _ Hlook) as [Hr Hl].
      revert He. unfold Evaluate.
      destruct (Evaluate_switch bf io) as [[bf2 io2]| |] eqn:Hsw;
        cbn [mbind result_bind]; [|discriminate|discriminate].
      intros [= <- <-]. destruct (Evaluate_end_frame bf2) as (_ & _ & Hd & _).
      rewrite Hd. apply (Evaluate_switch_DP bf io t bf2 io2 Ht Hr Hl Hsw). }
    specialize (IH bf1 io1). rewrite Hi1, Hl1, Hdp1 in IH.
    specialize (IH Hbal Hnm Hlen Hp1 Hf1 Hdp).
    destruct (steps n bf1 io1) as [[bf2 io2]| |]; [|exact IH|exact I].
    rewrite IH. reflexivity.
  - destruct (Evaluate_balanced_Panic bf io e1 Hbal Hlen Hin He) as [_ Hout].
    contradiction.
Qed.

(** X5. A text that is not empty, whose tokens are well-bracketed and
    that has neither ['<'] nor ['>'] never panics: however many iterations
    the caller's loop makes, it has not ended with a panic, and in every
    program that it reaches the data cursor is 0. *)
Theorem text_without_moves_never_panics (input : list rune) io fuel :
  input <> [] ->
  balanced (token_of_char <$> input) ->
  Z.of_nat (length input) <= max_int ->
  Forall (fun c => c <> chr "<" /\ c <> chr ">") input ->
  (forall e, run fuel (CreateBrainfuckProgram input) io <> Panic e) /\
  (forall bf io', steps fuel (CreateBrainfuckProgram input) io = Ok (bf, io') ->
     DP bf = 0).
Proof.
  intros Hne Hbal Hlen Hnm.
  pose proof (tokenize_Instructions
                {| Instructions := []; Tape := replicate tape_length 0;
                   DP := 0; PC := 0; Finished := false |} input) as Hins.
  change (tokenize _ input) with (CreateBrainfuckProgram input) in Hins.
  assert (Hl : length (Instructions (CreateBrainfuckProgram input)) = length input).
  { rewrite Hins. apply length_fmap. }
  assert (Hpos : (0 < length input)%nat).
  { destruct input; [contradiction | cbn [length]; lia]. }
  assert (Htape : Z.of_nat (length (Tape (CreateBrainfuckProgram input))) = 64000).
  { change (Tape (CreateBrainfuckProgram input)) with (replicate tape_length 0).
    rewrite length_replicate. apply Z2Nat.id. discriminate. }
  pose proof (steps_no_moves fuel (CreateBrainfuckProgram input) io) as Hsteps.
  rewrite Hins, Htape in Hsteps. rewrite length_fmap in Hsteps.
  change (PC (CreateBrainfuckProgram input)) with 0 in Hsteps.
  change (DP (CreateBrainfuckProgram input)) with 0 in Hsteps.
  change (Finished (CreateBrainfuckProgram input)) with false in Hsteps.
  assert (Hs := Hsteps Hbal). clear Hsteps.
  assert (Hs' := Hs ltac:(rewrite Forall_fmap; eapply Forall_impl; [exact Hnm|];
                          intros c [H1 H2]; apply token_of_char_no_move; assumption)
                    Hlen ltac:(lia) ltac:(split; [discriminate | lia]) ltac:(lia)).
  clear Hs. split.
  - intros e Hrun. apply run_Panic_steps in Hrun. rewrite Hrun in Hs'. exact Hs'.
  - intros bf io' Hok. rewrite Hok in Hs'. exact Hs'.
Qed.

(** the text ["+[-]."]: six steps *)
Lemma text_without_moves_never_panics_witness :
  (forall e,
     run 6 (CreateBrainfuckProgram (text "+[-]."))
         {| stdin := []; stdout := [] |} <> Panic e) /\
  (forall bf io',
     steps 6 (CreateBrainfuckProgram (text "+[-]."))
           {| stdin := []; stdout := [] |} = Ok (bf, io') ->
     DP bf = 0).
Proof.
  apply (text_without_moves_never_panics (text "+[-].")).
  - discriminate.
  - apply balancedb_sound. reflexivity.
  - vm_compute. discriminate.
  - change (text "+[-].") with [43; 91; 45; 93; 46].
    repeat (apply Forall_cons; split;
            [split; intros H; vm_compute in H; discriminate H|]).
    constructor.
Defined.

(** ** Texts without brackets *)

Lemma token_of_char_no_bracket c :
  c <> chr "[" -> c <> chr "]" ->
  token_of_char c <> LOOPL /\ token_of_char c <> LOOPR.
Proof.
  intros Hl Hr. unfold token_of_char.
  do 6 (destruct (c =? _); [split; discriminate|]).
  destruct (Z.eqb_spec c (chr "[")); [contradiction|].
  destruct (Z.eqb_spec c (chr "]")); [contradiction|].
  split; discriminate.
Qed.

(** a step on a token that is no bracket moves the cursor by one *)
Lemma Evaluate_other_cursor bf io t bf' io' :
  index (Instructions bf) (PC bf) = Ok t -> t <> LOOPL -> t <> LOOPR ->
  Z.of_nat (length (Instructions bf)) <= max_int ->
  Evaluate bf io = Ok (bf', io') ->
  Instructions bf' = Instructions bf /\
  PC bf' = PC bf + 1 /\
  Finished bf'
  = (Finished bf || (Z.of_nat (length (Instructions bf)) <=? PC bf + 1)).
Proof.
  intros Ht Hl Hr Hlen. unfold Evaluate.
  destruct (Evaluate_switch bf io) as [[bf1 io1]| |] eqn:Hsw; cbn [mbind result_bind];
    [|discriminate|discriminate].
  intros [= <- <-].
  destruct (Evaluate_switch_other _ _ _ _ _ Ht Hl Hr Hsw) as (Hi & Hp & Hf).
  apply index_Ok_inv in Ht as [Hpc _].
  unfold Evaluate_end. cbn [PC Instructions set_PC].
  rewrite Hi, Hp, int_incr_small by (unfold max_int in *; lia).
  destruct (_ <=? _); cbn [Instructions PC Finished set_PC set_Finished];
    rewrite ?Hi, ?Hf, ?orb_true_r, ?orb_false_r; auto.
Qed.

Lemma run_trace_finished fuel bf io :
  Finished bf = true -> run_trace fuel bf io = Ok (bf, io, []).
Proof. intros H. destruct fuel; cbn [run_trace]; rewrite H; reflexivity. Qed.

Lemma run_trace_straight fuel :
  forall bf io,
    Forall (fun t => t <> LOOPL /\ t <> LOOPR) (Instructions bf) ->
    Z.of_nat (length (Instructions bf)) <= max_int ->
    0 <= PC bf < Z.of_nat (length (Instructions bf)) ->
    Finished bf = false ->
    (Z.of_nat (length (Instructions bf)) - PC bf <= Z.of_nat fuel ->
     run_trace fuel bf io <> Timeout) /\
    (forall bf' io' pcs,
       run_trace fuel bf io = Ok (bf', io', pcs) ->
       pcs = cursors (PC bf) (Z.to_nat (Z.of_nat (length (Instructions bf)) - PC bf)) /\
       PC bf' = Z.of_nat (length (Instructions bf)) /\
       Finished bf' = true).
Proof.
  induction fuel as [|fuel IH]; intros bf io Hnb Hlen Hpc Hf; cbn [run_trace]; rewrite Hf.
  - split; [lia | discriminate].
  - destruct (lookup_lt_is_Some_2 (Instructions bf) (Z.to_nat (PC bf))) as [t Hlook];
      [lia|].
    assert (Ht : index (Instructions bf) (PC bf) = Ok t).
    { rewrite <- (Z2Nat.id (PC bf)) by lia. apply index_lookup, Hlook. }
    pose proof (proj1 (Forall_lookup _ _) Hnb _ _ Hlook) as [Hl Hr].
    pose proof (Evaluate_total bf io Hlen) as Htot.
    destruct (Evaluate bf io) as [[bf1 io1]| |] eqn:He; cbn [mbind result_bind];
      [|split; discriminate|contradiction].
    destruct (Evaluate_other_cursor _ _ _ _ _ Ht Hl Hr Hlen He) as (Hi1 & Hp1 & Hf1).
    rewrite Hf in Hf1. cbn [orb] in Hf1.
    replace (Z.to_nat (Z.of_nat (length (Instructions bf)) - PC bf))
      with (S (Z.to_nat (Z.of_nat (length (Instructions bf)) - (PC bf + 1)))) by lia.
    cbn [cursors].
    destruct (Z.leb_spec (Z.of_nat (length (Instructions bf))) (PC bf + 1)) as [Hend|Hin].
    + rewrite (run_trace_finished fuel bf1 io1 Hf1). cbn [mbind result_bind].
      split; [discriminate|]. intros bf' io' pcs [= <- <- <-].
      replace (Z.to_nat (Z.of_nat (length (Instructions bf)) - (PC bf + 1)))
        with 0%nat by lia.
      split; [reflexivity|]. split; [lia | exact Hf1].
    + assert (Hnb1 : Forall (fun t => t <> LOOPL /\ t <> LOOPR) (Instructions bf1))
        by (rewrite Hi1; exact Hnb).
      assert (Hlen1 : Z.of_nat (length (Instructions bf1)) <= max_int)
        by (rewrite Hi1; exact Hlen).
      assert (Hpc1 : 0 <= PC bf1 < Z.of_nat (length (Instructions bf1)))
        by (rewrite Hi1, Hp1; lia).
      destruct (IH bf1 io1 Hnb1 Hlen1 Hpc1 Hf1) as [Hto Hok].
      rewrite Hi1, Hp1 in Hto, Hok.
      destruct (run_trace fuel bf1 io1) as [[[bf2 io2] pcs2]| |] eqn:Hrec;
        cbn [mbind result_bind].
      * split; [discriminate|]. intros bf' io' pcs [= <- <- <-].
        destruct (Hok _ _ _ eq_refl) as (-> & Hp2 & Hf2). auto.
      * split; discriminate.
      * split; [|discriminate]. intros Hfuel. apply Hto. lia.
Qed.

(** X6. A text that is not empty and has neither ['['] nor [']'] is run
    straight through: the caller's loop ends within as many iterations as
    the text has characters, and when it ends with a program, [Evaluate] was
    called once at each cursor from 0 to the last, in this order, and
    [Finished] is set with the cursor at the end. *)
Theorem text_without_brackets_runs_straight (input : list rune) io fuel :
  input <> [] ->
  Z.of_nat (length input) <= max_int ->
  Forall (fun c => c <> chr "[" /\ c <> chr "]") input ->
  ((length input <= fuel)%nat ->
   run fuel (CreateBrainfuckProgram input) io <> Timeout) /\
  (forall bf io' pcs,
     run_trace fuel (CreateBrainfuckProgram input) io = Ok (bf, io', pcs) ->
     pcs = cursors 0 (length input) /\
     PC bf = Z.of_nat (length input) /\
     Finished bf = true).
Proof.
  intros Hne Hlen Hnb.
  pose proof (tokenize_Instructions
                {| Instructions := []; Tape := replicate tape_length 0;
                   DP := 0; PC := 0; Finished := false |} input) as Hins.
  change (tokenize _ input) with (CreateBrainfuckProgram input) in Hins.
  assert (Hpos : (0 < length input)%nat).
  { destruct input; [contradiction | cbn [length]; lia]. }
  destruct (run_trace_straight fuel (CreateBrainfuckProgram input) io) as [Hto Hok].
  - rewrite Hins, Forall_fmap. eapply Forall_impl; [exact Hnb|].
    intros c [H1 H2]. apply token_of_char_no_bracket; assumption.
  - rewrite Hins, length_fmap. exact Hlen.
  - rewrite Hins, length_fmap. change (PC (CreateBrainfuckProgram input)) with 0. lia.
  - reflexivity.
  - rewrite Hins, length_fmap in Hto, Hok.
    change (PC (CreateBrainfuckProgram input)) with 0 in Hto, Hok.
    rewrite Z.sub_0_r, Nat2Z.id in Hok. split.
    + intros Hfuel. rewrite run_trace_run. intros Hrun. apply Hto; [lia|].
      destruct (run_trace fuel (CreateBrainfuckProgram input) io)
        as [[[bf2 io2] pcs2]| |]; [discriminate | discriminate | reflexivity].
    + exact Hok.
Qed.

(** the text ["+ +."], with a comment in the middle *)
Lemma text_without_brackets_runs_straight_witness :
  run 4 (CreateBrainfuckProgram (text "+ +.")) {| stdin := []; stdout := [] |}
  <> Timeout.
Proof.
  refine (proj1 (text_without_brackets_runs_straight (text "+ +.")
                   {| stdin := []; stdout := [] |} 4 _ _ _) _).
  - discriminate.
  - vm_compute. discriminate.
  - change (text "+ +.") with [43; 32; 43; 46].
    repeat (apply Forall_cons; split;
            [split; intros H; vm_compute in H; discriminate H|]).
    constructor.
  - vm_compute. lia.
Defined.

(** ** debugTokens *)

Lemma debugTokens_token_symbol result t :
  is_symbol t = true ->
  exists name, debugTokens_token result t = result ++ [name] /\
               token_of_name name = Some t.
Proof.
  unfold is_symbol, debugTokens_token. rewrite andb_true_iff, Z.leb_le, Z.leb_le.
  unfold RIGHT, LEFT, INC, DEC, PRINT, READ, LOOPL, LOOPR. intros Ht.
  assert (Hcases : t = 1 \/ t = 2 \/ t = 3 \/ t = 4 \/ t = 5 \/ t = 6 \/ t = 7 \/ t = 8)
    by lia.
  repeat (destruct Hcases as [->|Hcases]; [eexists; split; reflexivity|]).
  subst t. eexists; split; reflexivity.
Qed.

Lemma debugTokens_token_other result t :
  is_symbol t = false -> debugTokens_token result t = result.
Proof.
  unfold is_symbol, debugTokens_token. rewrite andb_false_iff, Z.leb_gt, Z.leb_gt.
  unfold RIGHT, LEFT, INC, DEC, PRINT, READ, LOOPL, LOOPR. intros Ht.
  repeat match goal with
         | |- context [t =? ?k] => destruct (Z.eqb_spec t k); [lia|]
         end.
  reflexivity.
Qed.

Lemma debugTokens_loop l :
  forall result,
    token_of_name <$> fold_left debugTokens_token l result
    = (token_of_name <$> result) ++ (Some <$> List.filter is_symbol l).
Proof.
  induction l as [|t l IH]; intros result; cbn [fold_left List.filter].
  - cbn [fmap list_fmap]. rewrite app_nil_r. reflexivity.
  - rewrite IH. destruct (is_symbol t) eqn:Hs.
    + destruct (debugTokens_token_symbol result t Hs) as (name & -> & Hname).
      rewrite fmap_app, <- app_assoc. cbn [fmap list_fmap app]. rewrite Hname.
      reflexivity.
    + rewrite debugTokens_token_other by exact Hs. reflexivity.
Qed.

(** X7. [debugTokens] gives the names of the tokens that have a [case], in
    their order, and nothing for a comment or any other token: read back,
    the names are the tokens from [RIGHT] to [LOOPR] of the instructions.
    So there are as many names as such tokens, at most as many as
    instructions, and a name is not at the index of its instruction once a
    comment precedes it. *)
Theorem debugTokens_names_the_symbols bf :
  token_of_name <$> debugTokens bf
  = Some <$> List.filter is_symbol (Instructions bf) /\
  length (debugTokens bf) = length (List.filter is_symbol (Instructions bf)) /\
  (length (debugTokens bf) <= length (Instructions bf))%nat.
Proof.
  assert (H : token_of_name <$> debugTokens bf
              = Some <$> List.filter is_symbol (Instructions bf)).
  { unfold debugTokens. rewrite debugTokens_loop. reflexivity. }
  assert (Hlen : length (debugTokens bf)
                 = length (List.filter is_symbol (Instructions bf))).
  { rewrite <- (length_fmap token_of_name), H, length_fmap. reflexivity. }
  split; [exact H|]. split; [exact Hlen|].
  rewrite Hlen. apply List.filter_length_le.
Qed.

(** ** Two steps in a row *)


Lemma store_inside {A} (s : list A) i x :
  0 <= i < Z.of_nat (length s) -> store s i x = Ok (<[Z.to_nat i := x]> s).
Proof. intros H. unfold store. apply in_range_spec in H. rewrite H. reflexivity. Qed.

(** [Evaluate_end] where the cursor stays inside the instructions or comes
    to their end *)
Lemma Evaluate_end_next ins tape dp pc fin :
  0 <= pc < Z.of_nat (length ins) -> Z.of_nat (length ins) <= max_int ->
  Evaluate_end (mkBrainfuckProgram ins tape dp pc fin)
  = mkBrainfuckProgram ins tape dp (pc + 1)
      (fin || (Z.of_nat (length ins) <=? pc + 1)).
Proof.
  intros H1 H2. unfold Evaluate_end. cbn [PC Instructions set_PC].
  rewrite int_incr_small by (unfold max_int in *; lia).
  destruct (_ <=? _); cbn [set_Finished Instructions Tape DP PC Finished];
    rewrite ?orb_true_r, ?orb_false_r; reflexivity.
Qed.



(** a step that replaces the current cell [c] by [f c] *)
Lemma Evaluate_cell_op (f : Z -> Z) t ins tape dp pc fin io c :
  (forall bf io, index (Instructions bf) (PC bf) = Ok t ->
     Evaluate_switch bf io =
       (cell ← index (Tape bf) (DP bf);
        tape ← store (Tape bf) (DP bf) (f cell);
        Ok (set_Tape bf tape, io))) ->
  Z.of_nat (length ins) <= max_int ->
  index ins pc = Ok t ->
  index tape dp = Ok c ->
  Evaluate (mkBrainfuckProgram ins tape dp pc fin) io
  = Ok (mkBrainfuckProgram ins (<[Z.to_nat dp := f c]> tape) dp (pc + 1)
          (fin || (Z.of_nat (length ins) <=? pc + 1)), io).
Proof.
  intros Hsw Hlen Ht Hc.
  pose proof (index_Ok_inv _ _ _ Ht) as [Hpc _].
  pose proof (index_Ok_inv _ _ _ Hc) as [Hdp _].
  unfold Evaluate. rewrite Hsw by exact Ht. cbn [Tape DP]. rewrite Hc.
  cbn [mbind result_bind]. rewrite store_inside by exact Hdp.
  cbn [mbind result_bind]. unfold set_Tape. cbn [Instructions Tape DP PC Finished].
  rewrite Evaluate_end_next by lia. reflexivity.
Qed.

Lemma byte_decr_incr c : 0 <= c < 256 -> byte_decr (byte_incr c) = c.
Proof.
  intros H. unfold byte_decr, byte_incr, byte_of.
  rewrite Zminus_mod_idemp_l. replace (c + 1 - 1) with c by lia.
  apply Z.mod_small. lia.
Qed.

Lemma byte_incr_decr c : 0 <= c < 256 -> byte_incr (byte_decr c) = c.
Proof.
  intros H. unfold byte_decr, byte_incr, byte_of.
  rewrite Zplus_mod_idemp_l. replace (c - 1 + 1) with c by lia.
  apply Z.mod_small. lia.
Qed.

(** X9. [INC] followed by [DEC], or [DEC] followed by [INC], on a cell
    that holds a byte: after the two steps the tape is what it was, also
    when the first step wraps around (255 to 0, or 0 to 255); only the
    instruction cursor, by two, and [Finished] are changed. *)
Theorem increment_and_decrement_cancel bf io (c : Z) :
  Z.of_nat (length (Instructions bf)) <= max_int ->
  Finished bf = false ->
  index (Tape bf) (DP bf) = Ok c ->
  0 <= c < 256 ->
  (index (Instructions bf) (PC bf) = Ok INC /\
   index (Instructions bf) (PC bf + 1) = Ok DEC \/
   index (Instructions bf) (PC bf) = Ok DEC /\
   index (Instructions bf) (PC bf + 1) = Ok INC) ->
  steps 2 bf io
  = Ok ({| Instructions := Instructions bf;
           Tape := Tape bf;
           DP := DP bf;
           PC := PC bf + 2;
           Finished := Z.of_nat (length (Instructions bf)) <=? PC bf + 2 |}, io).
Proof.
  destruct bf as [ins tape dp pc fin].
  cbn [Instructions PC Tape DP Finished].
  intros Hlen -> Hc Hbyte Hops.
  pose proof (index_Ok_inv _ _ _ Hc) as [Hdp Hlook].
  assert (Htwo : forall (f g : Z -> Z) t1 t2,
    (forall bf io, index (Instructions bf) (PC bf) = Ok t1 ->
       Evaluate_switch bf io =
         (cell ← index (Tape bf) (DP bf);
          tape ← store (Tape bf) (DP bf) (f cell);
          Ok (set_Tape bf tape, io))) ->
    (forall bf io, index (Instructions bf) (PC bf) = Ok t2 ->
       Evaluate_switch bf io =
         (cell ← index (Tape bf) (DP bf);
          tape ← store (Tape bf) (DP bf) (g cell);
          Ok (set_Tape bf tape, io))) ->
    g (f c) = c ->
    index ins pc = Ok t1 -> index ins (pc + 1) = Ok t2 ->
    steps 2 (mkBrainfuckProgram ins tape dp pc false) io
    = Ok (mkBrainfuckProgram ins tape dp (pc + 2)
            (Z.of_nat (length ins) <=? pc + 2), io)).
  { intros f g t1 t2 Hf Hg Hgf Ht1 Ht2.
    pose proof (index_Ok_inv _ _ _ Ht2) as [Hpc1 _].
    cbn [steps Finished].
    rewrite (Evaluate_cell_op f t1 ins tape dp pc false io c Hf Hlen Ht1 Hc).
    cbn [mbind result_bind orb].
    destruct (Z.leb_spec (Z.of_nat (length ins)) (pc + 1)) as [|_]; [lia|].
    cbn [Finished].
    rewrite (Evaluate_cell_op g t2 ins _ dp (pc + 1) false io (f c) Hg Hlen Ht2).
    2:{ rewrite <- (Z2Nat.id dp) at 2 by lia. apply index_lookup.
        apply list_lookup_insert_eq. lia. }
    cbn [mbind result_bind orb].
    rewrite list_insert_insert_eq, Hgf, list_insert_id by exact Hlook.
    replace (pc + 1 + 1) with (pc + 2) by lia. reflexivity. }
  destruct Hops as [[H1 H2]|[H1 H2]].
  - apply (Htwo byte_incr byte_decr INC DEC);
      auto using Evaluate_switch_INC, Evaluate_switch_DEC, byte_decr_incr.
  - apply (Htwo byte_decr byte_incr DEC INC);
      auto using Evaluate_switch_INC, Evaluate_switch_DEC, byte_incr_decr.
Qed.

(** the text ["-+"] on the fresh tape: 0, 255, 0 *)
Lemma increment_and_decrement_cancel_witness :
  let bf := CreateBrainfuckProgram (text "-+") in
  let io := {| stdin := []; stdout := [] |} in
  steps 2 bf io
  = Ok ({| Instructions := Instructions bf;
           Tape := Tape bf;
           DP := DP bf;
           PC := PC bf + 2;
           Finished := Z.of_nat (length (Instructions bf)) <=? PC bf + 2 |}, io).
Proof.
  intros bf io. apply (increment_and_decrement_cancel bf io 0).
  - vm_compute. discriminate.
  - reflexivity.
  - reflexivity.
  - lia.
  - right. split; reflexivity.
Defined.

(** ** Tokenizing texts that are put together *)


(** ** The cells are bytes *)

Lemma byte_of_range x : 0 <= byte_of x < 256.
Proof. unfold byte_of. apply Z.mod_pos_bound. lia. Qed.

Lemma store_bytes (s : list Z) i x s' :
  Forall (fun c => 0 <= c < 256) s -> 0 <= x < 256 ->
  store s i x = Ok s' -> Forall (fun c => 0 <= c < 256) s'.
Proof.
  intros Hs Hx. unfold store. destruct (in_range s i); [|discriminate].
  intros [= <-]. apply Forall_insert; assumption.
Qed.

Lemma Evaluate_bytes bf io bf' io' :
  Forall (fun c => 0 <= c < 256) (Tape bf) ->
  Evaluate bf io = Ok (bf', io') ->
  Forall (fun c => 0 <= c < 256) (Tape bf').
Proof.
  intros Hb. unfold Evaluate.
  destruct (Evaluate_switch bf io) as [[bf1 io1]| |] eqn:Hsw; cbn [mbind result_bind];
    [|discriminate|discriminate].
  intros [= <- <-]. destruct (Evaluate_end_frame bf1) as (_ & -> & _).
  revert Hsw. unfold Evaluate_switch.
  case_index (Instructions bf) (PC bf) t Ht; [|discriminate].
  destruct (t =? RIGHT); [intros [= <- <-]; exact Hb|].
  destruct (t =? LEFT); [intros [= <- <-]; exact Hb|].
  destruct (t =? INC).
  { case_index (Tape bf) (DP bf) cell Hcell; [|discriminate].
    case_store (Tape bf) (DP bf) (byte_incr cell) tape Htape; [|discriminate].
    intros [= <- <-]. eapply store_bytes; [exact Hb | apply byte_of_range | exact Htape]. }
  destruct (t =? DEC).
  { case_index (Tape bf) (DP bf) cell Hcell; [|discriminate].
    case_store (Tape bf) (DP bf) (byte_decr cell) tape Htape; [|discriminate].
    intros [= <- <-]. eapply store_bytes; [exact Hb | apply byte_of_range | exact Htape]. }
  destruct (t =? PRINT).
  { case_index (Tape bf) (DP bf) cell Hcell; [|discriminate].
    intros [= <- <-]. exact Hb. }
  destruct (t =? READ).
  { destruct (ReadRune io) as [[char err] io2].
    case_store (Tape bf) (DP bf) (byte_of char) tape Htape; [|discriminate].
    intros [= <- <-]. eapply store_bytes; [exact Hb | apply byte_of_range | exact Htape]. }
  destruct (t =? LOOPL).
  { destruct (openLoop bf) as [bf2| |] eqn:Ho; cbn [mbind result_bind];
      [|discriminate|discriminate].
    intros [= <- <-]. unfold openLoop in Ho.
    destruct (index (Tape bf) (DP bf)) as [cell| |]; cbn [mbind result_bind] in Ho;
      [|discriminate|discriminate].
    destruct (cell =? 0); [|injection Ho as <-; exact Hb].
    apply openLoop_for_frame in Ho. rewrite Ho. exact Hb. }
  destruct (t =? LOOPR).
  { destruct (closeLoop bf) as [bf2| |] eqn:Hc; cbn [mbind result_bind];
      [|discriminate|discriminate].
    intros [= <- <-]. unfold closeLoop in Hc.
    apply closeLoop_for_frame in Hc. rewrite Hc. exact Hb. }
  intros [= <- <-]. exact Hb.
Qed.

(** X11. Whatever the text and the characters of the input, also
    characters above 255, every cell of every program that the caller's
    loop reaches holds a byte, and what is printed are bytes. *)
Theorem cells_and_output_are_bytes (input : list rune) (stdin0 : list rune) n bf io :
  steps n (CreateBrainfuckProgram input) {| stdin := stdin0; stdout := [] |}
  = Ok (bf, io) ->
  Forall (fun c => 0 <= c < 256) (Tape bf) /\
  Forall (fun c => 0 <= c < 256) (stdout io).
Proof.
  assert (Hgen : forall n bf0 io0,
    Forall (fun c => 0 <= c < 256) (Tape bf0) ->
    Forall (fun c => 0 <= c < 256) (stdout io0) ->
    steps n bf0 io0 = Ok (bf, io) ->
    Forall (fun c => 0 <= c < 256) (Tape bf) /\
    Forall (fun c => 0 <= c < 256) (stdout io)).
  { clear n. induction n as [|n IH]; intros bf0 io0 Ht Ho; cbn [steps].
    - intros [= <- <-]. auto.
    - destruct (Finished bf0); [intros [= <- <-]; auto|].
      destruct (Evaluate bf0 io0) as [[bf1 io1]| |] eqn:He; cbn [mbind result_bind];
        [|discriminate|discriminate].
      apply IH; [eapply Evaluate_bytes; eassumption|].
      (* what one step prints is the current cell *)
      revert He. unfold Evaluate.
      destruct (Evaluate_switch bf0 io0) as [[bf2 io2]| |] eqn:Hsw;
        cbn [mbind result_bind]; [|discriminate|discriminate].
      intros [= _ <-]. revert Hsw. unfold Evaluate_switch.
      case_index (Instructions bf0) (PC bf0) t Hidx; [|discriminate].
      destruct (t =? RIGHT); [intros [= _ <-]; exact Ho|].
      destruct (t =? LEFT); [intros [= _ <-]; exact Ho|].
      destruct (t =? INC).
      { case_index (Tape bf0) (DP bf0) cell Hcell; [|discriminate].
        case_store (Tape bf0) (DP bf0) (byte_incr cell) tape Htape; [|discriminate].
        intros [= _ <-]. exact Ho. }
      destruct (t =? DEC).
      { case_index (Tape bf0) (DP bf0) cell Hcell; [|discriminate].
        case_store (Tape bf0) (DP bf0) (byte_decr cell) tape Htape; [|discriminate].
        intros [= _ <-]. exact Ho. }
      destruct (t =? PRINT).
      { case_index (Tape bf0) (DP bf0) cell Hcell; [|discriminate].
        intros [= _ <-]. cbn [Printf_c stdout]. apply Forall_app. split; [exact Ho|].
        apply Forall_cons. split; [|constructor].
        apply index_Ok_inv in Hcell as [_ Hcell].
        apply (proj1 (Forall_lookup _ _) Ht _ _ Hcell). }
      destruct (t =? READ).
      { unfold ReadRune. destruct (stdin io0) as [|r rest].
        - case_store (Tape bf0) (DP bf0) (byte_of 0) tape Htape; [|discriminate].
          intros [= _ <-]. exact Ho.
        - case_store (Tape bf0) (DP bf0) (byte_of r) tape Htape; [|discriminate].
          intros [= _ <-]. exact Ho. }
      destruct (t =? LOOPL).
      { destruct (openLoop bf0); cbn [mbind result_bind]; try discriminate.
        intros [= _ <-]. exact Ho. }
      destruct (t =? LOOPR).
      { destruct (closeLoop bf0); cbn [mbind result_bind]; try discriminate.
        intros [= _ <-]. exact Ho. }
      intros [= _ <-]. exact Ho. }
  apply Hgen.
  - change (Tape (CreateBrainfuckProgram input)) with (replicate tape_length 0).
    apply Forall_replicate. lia.
  - constructor.
Qed.

(** the text [",."] with the character 8364 in the input: 172 is stored and
    printed *)
Lemma cells_and_output_are_bytes_witness :
  let bf0 := CreateBrainfuckProgram (text ",.") in
  Forall (fun c => 0 <= c < 256) (<[0%nat := 172]> (Tape bf0)) /\
  Forall (fun c => 0 <= c < 256) [172].
Proof.
  intros bf0.
  apply (cells_and_output_are_bytes (text ",.") [8364] 2
           (mkBrainfuckProgram (Instructions bf0) (<[0%nat := 172]> (Tape bf0)) 0 2 true)
           {| stdin := []; stdout := [172] |}).
  reflexivity.
Defined.

(** ** The data cursor off the tape *)

(** X12. The moves do not look at the tape: a step on [RIGHT] or [LEFT]
    gives a program whatever the data cursor is, also one that is off the
    tape.  With the data cursor off the tape, a step on [INC], [DEC],
    [PRINT], [READ] or [LOOPL] panics on the access to the current cell,
    and a step on a comment does not. *)
Theorem data_cursor_off_tape bf io t :
  Z.of_nat (length (Instructions bf)) <= max_int ->
  index (Instructions bf) (PC bf) = Ok t ->
  (t = RIGHT -> Evaluate bf io = Ok (Evaluate_end (set_DP bf (int_incr (DP bf))), io)) /\
  (t = LEFT -> Evaluate bf io = Ok (Evaluate_end (set_DP bf (int_decr (DP bf))), io)) /\
  (t = COMMENT -> Evaluate bf io = Ok (Evaluate_end bf, io)) /\
  (~ 0 <= DP bf < Z.of_nat (length (Tape bf)) ->
   t = INC \/ t = DEC \/ t = PRINT \/ t = READ \/ t = LOOPL ->
   Evaluate bf io
   = Panic (IndexOutOfRange (DP bf) (Z.of_nat (length (Tape bf))))).
Proof.
  intros Hlen Ht.
  split; [|split; [|split]]; try (intros ->; unfold Evaluate, Evaluate_switch;
                                  rewrite Ht; reflexivity).
  intros Hout Hcases. unfold Evaluate, Evaluate_switch, openLoop. rewrite Ht.
  cbn [mbind result_bind].
  assert (Hidx : index (Tape bf) (DP bf)
                 = Panic (IndexOutOfRange (DP bf) (Z.of_nat (length (Tape bf)))))
    by (apply index_outside, Hout).
  assert (Hst : forall x, store (Tape bf) (DP bf) x
                 = Panic (IndexOutOfRange (DP bf) (Z.of_nat (length (Tape bf))))).
  { intros x. unfold store. destruct (in_range _ _) eqn:Hr; [|reflexivity].
    apply in_range_spec in Hr. contradiction. }
  destruct Hcases as [ -> | [ -> | [ -> | [ -> | -> ] ] ] ];
    cbn [Z.eqb Pos.eqb RIGHT LEFT INC DEC PRINT READ LOOPL LOOPR];
    rewrite ?Hidx; try reflexivity.
  destruct (ReadRune io) as [[char err] io1]. rewrite Hst. reflexivity.
Qed.

(** the text ["<."]: the move to -1 is accepted, the output of the cell at
    -1 panics *)
Lemma data_cursor_off_tape_witness :
  let bf0 := CreateBrainfuckProgram (text "<.") in
  let bf1 := mkBrainfuckProgram (Instructions bf0) (Tape bf0) (-1) 1 false in
  let io := {| stdin := []; stdout := [] |} in
  Evaluate bf0 io = Ok (bf1, io) /\
  Evaluate bf1 io = Panic (IndexOutOfRange (-1) 64000).
Proof.
  intros bf0 bf1 io. split; [reflexivity|].
  refine (proj2 (proj2 (proj2 (data_cursor_off_tape bf1 io PRINT _ _))) _ _).
  - vm_compute. discriminate.
  - reflexivity.
  - vm_compute. intros [H _]. apply H. reflexivity.
  - auto.
Defined.

(** ** A whole loop *)

Lemma steps_add a :
  forall b bf io,
    steps (a + b) bf io = ('(bf', io') ← steps a bf io; steps b bf' io').
Proof.
  induction a as [|a IH]; intros b bf io; cbn [Nat.add steps].
  - reflexivity.
  - destruct (Finished bf) eqn:Hf.
    + cbn [mbind result_bind]. destruct b; cbn [steps]; rewrite ?Hf; reflexivity.
    + destruct (Evaluate bf io) as [[bf1 io1]| |]; cbn [mbind result_bind];
        [apply IH | reflexivity | reflexivity].
Qed.

Lemma Evaluate_LOOPL_nonzero ins tape dp pc fin io c :
  Z.of_nat (length ins) <= max_int ->
  index ins pc = Ok LOOPL -> index tape dp = Ok c -> c <> 0 ->
  pc + 1 < Z.of_nat (length ins) ->
  Evaluate (mkBrainfuckProgram ins tape dp pc fin) io
  = Ok (mkBrainfuckProgram ins tape dp (pc + 1) fin, io).
Proof.
  intros Hlen Ht Hc Hnz Hin. pose proof (index_Ok_inv _ _ _ Ht) as [Hpc _].
  unfold Evaluate. rewrite Evaluate_switch_LOOPL by exact Ht.
  unfold openLoop. cbn [Tape DP]. rewrite Hc. cbn [mbind result_bind].
  destruct (Z.eqb_spec c 0); [contradiction|]. cbn [mbind result_bind].
  rewrite Evaluate_end_inside by (unfold max_int in *; lia). reflexivity.
Qed.

Lemma Evaluate_LOOPL_zero ins tape dp fin io i j :
  Z.of_nat (length ins) <= max_int ->
  matching ins i j -> index tape dp = Ok 0 ->
  Evaluate (mkBrainfuckProgram ins tape dp (Z.of_nat i) fin) io
  = Ok (mkBrainfuckProgram ins tape dp (Z.of_nat j + 1)
          (fin || (Z.of_nat (length ins) <=? Z.of_nat j + 1)), io).
Proof.
  intros Hlen Hm Hc. pose proof (matching_lt _ _ _ Hm) as Hlt.
  unfold Evaluate. rewrite Evaluate_switch_LOOPL
    by (apply index_lookup, (matching_lookup _ _ _ Hm)).
  unfold openLoop. cbn [Tape DP Instructions]. rewrite Hc. cbn [mbind result_bind].
  change (0 =? 0) with true. cbn iota.
  rewrite (openLoop_for_matching ins tape dp fin i j Hlen Hm).
  cbn [mbind result_bind]. rewrite Evaluate_end_next by lia. reflexivity.
Qed.

Lemma Evaluate_LOOPR_back ins tape dp fin io i j :
  Z.of_nat (length ins) <= max_int ->
  matching ins i j ->
  Evaluate (mkBrainfuckProgram ins tape dp (Z.of_nat j) fin) io
  = Ok (mkBrainfuckProgram ins tape dp (Z.of_nat i) fin, io).
Proof.
  intros Hlen Hm. pose proof (matching_lt _ _ _ Hm) as Hlt.
  unfold Evaluate. rewrite Evaluate_switch_LOOPR
    by (apply index_lookup, (matching_lookup _ _ _ Hm)).
  unfold closeLoop. cbn [Instructions].
  rewrite (closeLoop_for_matching ins tape dp fin i j Hlen Hm).
  cbn [mbind result_bind].
  rewrite Evaluate_end_inside by (unfold max_int in *; lia).
  replace (Z.of_nat i - 1 + 1) with (Z.of_nat i) by lia. reflexivity.
Qed.

(** X13. The loop ["[-]"], wherever it stands in the instructions, with
    the cursor on its loop-open and a current cell that holds the byte [c]:
    the caller's loop goes [c] times through the loop-open, the decrement
    and the loop-close, and once more through the loop-open; after these
    [3 c + 1] steps the cell holds 0, the cursor is one past the
    loop-close, and nothing else is changed but [Finished], set when the
    loop was the end of the instructions. *)
Theorem clear_loop_zeroes_cell (pre post : list Token) tape dp io (c : Z) :
  let ins := pre ++ LOOPL :: DEC :: LOOPR :: post in
  Z.of_nat (length ins) <= max_int ->
  index tape dp = Ok c ->
  0 <= c < 256 ->
  steps (Z.to_nat (3 * c + 1))
        (mkBrainfuckProgram ins tape dp (Z.of_nat (length pre)) false) io
  = Ok (mkBrainfuckProgram ins (<[Z.to_nat dp := 0]> tape) dp
          (Z.of_nat (length pre) + 3)
          (Z.of_nat (length ins) <=? Z.of_nat (length pre) + 3), io).
Proof.
  intros ins Hlen Hc Hbyte.
  pose proof (index_Ok_inv _ _ _ Hc) as [Hdp Hlook].
  assert (Hm : matching ins (length pre) (length pre + 1 + 1)).
  { apply (matching_intro pre [DEC] post).
    apply balanced_token; [discriminate | discriminate | apply balanced_nil]. }
  assert (Hleni : Z.of_nat (length pre) + 3 <= Z.of_nat (length ins)).
  { unfold ins. rewrite length_app. cbn [length]. lia. }
  assert (Hdec : index ins (Z.of_nat (length pre) + 1) = Ok DEC).
  { unfold ins.
    replace (pre ++ LOOPL :: DEC :: LOOPR :: post)
      with ((pre ++ [LOOPL]) ++ DEC :: LOOPR :: post)
      by (rewrite <- app_assoc; reflexivity).
    apply index_middle. rewrite length_app. cbn [length]. lia. }
  (* the steps, by the number that the cell holds *)
  assert (Hloop : forall k : nat,
    Z.of_nat k < 256 ->
    steps (3 * k + 1)
          (mkBrainfuckProgram ins (<[Z.to_nat dp := Z.of_nat k]> tape) dp
             (Z.of_nat (length pre)) false) io
    = Ok (mkBrainfuckProgram ins (<[Z.to_nat dp := 0]> tape) dp
            (Z.of_nat (length pre) + 3)
            (Z.of_nat (length ins) <=? Z.of_nat (length pre) + 3), io)).
  { induction k as [|k IH]; intros Hk.
    - cbn [Nat.mul Nat.add steps Finished].
      rewrite (Evaluate_LOOPL_zero ins _ dp false io _ _ Hlen Hm).
      2:{ rewrite <- (Z2Nat.id dp) at 2 by lia. apply index_lookup.
          apply list_lookup_insert_eq. lia. }
      cbn [mbind result_bind orb].
      replace (Z.of_nat (length pre + 1 + 1) + 1) with (Z.of_nat (length pre) + 3)
        by lia.
      reflexivity.
    - replace (3 * S k + 1)%nat with (3 + (3 * k + 1))%nat by lia.
      rewrite steps_add. cbn [steps Finished].
      (* the loop-open, on a cell that is not 0 *)
      rewrite (Evaluate_LOOPL_nonzero ins _ dp _ false io (Z.of_nat (S k)));
        [| assumption
         | apply index_lookup, (matching_lookup _ _ _ Hm)
         | rewrite <- (Z2Nat.id dp) at 2 by lia; apply index_lookup;
           apply list_lookup_insert_eq; lia
         | lia
         | lia ].
      cbn [mbind result_bind Finished].
      (* the decrement *)
      rewrite (Evaluate_cell_op byte_decr DEC ins _ dp _ false io (Z.of_nat (S k))
                 Evaluate_switch_DEC Hlen Hdec).
      2:{ rewrite <- (Z2Nat.id dp) at 2 by lia. apply index_lookup.
          apply list_lookup_insert_eq. lia. }
      cbn [mbind result_bind orb].
      destruct (Z.leb_spec (Z.of_nat (length ins)) (Z.of_nat (length pre) + 1 + 1))
        as [|_]; [lia|].
      cbn [Finished]. rewrite list_insert_insert_eq.
      assert (Hk1 : byte_decr (Z.of_nat (S k)) = Z.of_nat k).
      { unfold byte_decr, byte_of. rewrite Z.mod_small; lia. }
      rewrite Hk1.
      (* the loop-close *)
      replace (Z.of_nat (length pre) + 1 + 1) with (Z.of_nat (length pre + 1 + 1))
        by lia.
      rewrite (Evaluate_LOOPR_back ins _ dp false io _ _ Hlen Hm).
      cbn [mbind result_bind]. apply IH. lia. }
  specialize (Hloop (Z.to_nat c)).
  rewrite Z2Nat.id, list_insert_id in Hloop by (lia || exact Hlook).
  replace (Z.to_nat (3 * c + 1)) with (3 * Z.to_nat c + 1)%nat by lia.
  apply Hloop. lia.
Qed.

(** the text ["+++[-]"] after its three increments *)
Lemma clear_loop_zeroes_cell_witness :
  let tape := <[0%nat := 3]> (replicate tape_length 0) in
  let ins := [INC; INC; INC] ++ LOOPL :: DEC :: LOOPR :: [] in
  steps (Z.to_nat (3 * 3 + 1))
        (mkBrainfuckProgram ins tape 0 (Z.of_nat (length [INC; INC; INC])) false)
        {| stdin := []; stdout := [] |}
  = Ok (mkBrainfuckProgram ins (<[Z.to_nat 0 := 0]> tape) 0
          (Z.of_nat (length [INC; INC; INC]) + 3)
          (Z.of_nat (length ins) <=? Z.of_nat (length [INC; INC; INC]) + 3),
        {| stdin := []; stdout := [] |}).
Proof.
  intros tape ins.
  apply (clear_loop_zeroes_cell [INC; INC; INC] [] tape 0
           {| stdin := []; stdout := [] |} 3).
  - vm_compute. discriminate.
  - reflexivity.
  - lia.
Defined.
